(** * slopetools: limit-equilibrium solvers and ground-surface extraction

    A shallow embedding of [solve.py] and [utils.py] (whose
    [build_ground_surface] is repeated verbatim in [fileio.py]).

    Numbers.  Python floats are modelled as exact real numbers extended with
    the three IEEE special values, so that division by zero, [float('inf')]
    and NaN comparisons behave as they do in numpy.  Rounding and the sign of
    zero are not modelled.

    Arrays.  The code mixes [pandas.Series] (from [df['col']]) with
    [numpy.ndarray] (from [.values]) and plain scalars.  The three are kept
    apart because [Series.sum()] skips NaN entries while [ndarray.sum()]
    propagates them. *)

From Stdlib Require Import Reals Lra Lia List String Bool Arith.
From Stdlib Require Import Sorted Permutation.
Import ListNotations.
Open Scope R_scope.

(** ** Floats *)

Module Float.

Inductive fl : Type :=
| Fin (r : R)
| PInf
| NInf
| NaN.

Definition sgn (r : R) : comparison :=
  if Rlt_dec 0 r then Gt else if Rlt_dec r 0 then Lt else Eq.

Definition signed_inf (s : comparison) : fl :=
  match s with Gt => PInf | Lt => NInf | Eq => NaN end.

Definition opp (a : fl) : fl :=
  match a with
  | Fin x => Fin (- x)
  | PInf => NInf
  | NInf => PInf
  | NaN => NaN
  end.

Definition add (a b : fl) : fl :=
  match a, b with
  | NaN, _ | _, NaN => NaN
  | Fin x, Fin y => Fin (x + y)
  | PInf, NInf | NInf, PInf => NaN
  | PInf, _ | _, PInf => PInf
  | NInf, _ | _, NInf => NInf
  end.

Definition sub (a b : fl) : fl := add a (opp b).

Definition mul (a b : fl) : fl :=
  match a, b with
  | NaN, _ | _, NaN => NaN
  | Fin x, Fin y => Fin (x * y)
  | Fin x, PInf | PInf, Fin x => signed_inf (sgn x)
  | Fin x, NInf | NInf, Fin x => signed_inf (CompOpp (sgn x))
  | PInf, PInf | NInf, NInf => PInf
  | PInf, NInf | NInf, PInf => NInf
  end.

(** numpy division: a zero divisor gives an infinity of the sign of the
    dividend, or NaN for 0/0; it never raises. *)
Definition div (a b : fl) : fl :=
  match a, b with
  | NaN, _ | _, NaN => NaN
  | Fin x, Fin y => if Req_EM_T y 0 then signed_inf (sgn x) else Fin (x / y)
  | Fin _, (PInf | NInf) => Fin 0
  | PInf, Fin y => if Rlt_dec y 0 then NInf else PInf
  | NInf, Fin y => if Rlt_dec y 0 then PInf else NInf
  | (PInf | NInf), (PInf | NInf) => NaN
  end.

Definition abs (a : fl) : fl :=
  match a with
  | Fin x => Fin (Rabs x)
  | PInf | NInf => PInf
  | NaN => NaN
  end.

(** [a < b]; false as soon as one side is NaN. *)
Definition ltb (a b : fl) : bool :=
  match a, b with
  | NaN, _ | _, NaN => false
  | Fin x, Fin y => if Rlt_dec x y then true else false
  | NInf, (Fin _ | PInf) => true
  | Fin _, PInf => true
  | _, _ => false
  end.

(** [a == b]; false as soon as one side is NaN. *)
Definition eqb (a b : fl) : bool :=
  match a, b with
  | Fin x, Fin y => if Req_EM_T x y then true else false
  | PInf, PInf | NInf, NInf => true
  | _, _ => false
  end.

(** [a != b] *)
Definition neb (a b : fl) : bool := negb (eqb a b).

Definition is_nan (a : fl) : bool :=
  match a with NaN => true | _ => false end.

Definition sin (a : fl) : fl :=
  match a with Fin x => Fin (Rtrigo_def.sin x) | _ => NaN end.

Definition cos (a : fl) : fl :=
  match a with Fin x => Fin (Rtrigo_def.cos x) | _ => NaN end.

Definition tan (a : fl) : fl :=
  match a with
  | Fin x => div (Fin (Rtrigo_def.sin x)) (Fin (Rtrigo_def.cos x))
  | _ => NaN
  end.

Definition arcsin (a : fl) : fl :=
  match a with
  | Fin x => if Rle_dec (-1) x then if Rle_dec x 1 then Fin (asin x) else NaN
             else NaN
  | _ => NaN
  end.

(** [radians(x)] and [degrees(x)] *)
Definition radians (a : fl) : fl := mul a (Fin (PI / 180)).
Definition degrees (a : fl) : fl := mul a (Fin (180 / PI)).

(** [np.clip(x, lo, hi)] = [minimum(maximum(x, lo), hi)], NaN propagating. *)
Definition clip (a lo hi : fl) : fl :=
  match a with
  | NaN => NaN
  | _ => if ltb a lo then lo else if ltb hi a then hi else a
  end.

Definition inf : fl := PInf.

End Float.

Abbreviation fl := Float.fl.
Abbreviation Fin := Float.Fin.
Abbreviation PInf := Float.PInf.
Abbreviation NInf := Float.NInf.
Abbreviation NaN := Float.NaN.

Declare Scope fl_scope.
Delimit Scope fl_scope with fl.
Bind Scope fl_scope with Float.fl.
Notation "a + b" := (Float.add a b) : fl_scope.
Notation "a - b" := (Float.sub a b) : fl_scope.
Notation "a * b" := (Float.mul a b) : fl_scope.
Notation "a / b" := (Float.div a b) : fl_scope.

(** ** numpy / pandas values *)

Module Np.

Inductive value : Type :=
| Scalar (x : fl)
| NDArray (xs : list fl)
| Series (xs : list fl).

Fixpoint zip_with (f : fl -> fl -> fl) (xs ys : list fl) : list fl :=
  match xs, ys with
  | x :: xs', y :: ys' => f x y :: zip_with f xs' ys'
  | _, _ => []
  end.

(** Element-wise binary operation with scalar broadcasting.  The result is a
    Series as soon as one operand is. *)
Definition binop (f : fl -> fl -> fl) (a b : value) : value :=
  match a, b with
  | Scalar x, Scalar y => Scalar (f x y)
  | Scalar x, NDArray ys => NDArray (map (f x) ys)
  | NDArray xs, Scalar y => NDArray (map (fun x => f x y) xs)
  | NDArray xs, NDArray ys => NDArray (zip_with f xs ys)
  | Scalar x, Series ys => Series (map (f x) ys)
  | Series xs, Scalar y => Series (map (fun x => f x y) xs)
  | Series xs, (NDArray ys | Series ys)
  | NDArray xs, Series ys => Series (zip_with f xs ys)
  end.

(** A numpy ufunc applied to a value keeps its kind. *)
Definition ufunc (f : fl -> fl) (a : value) : value :=
  match a with
  | Scalar x => Scalar (f x)
  | NDArray xs => NDArray (map f xs)
  | Series xs => Series (map f xs)
  end.

Definition radians := ufunc Float.radians.
Definition sin := ufunc Float.sin.
Definition cos := ufunc Float.cos.
Definition tan := ufunc Float.tan.

(** [a ** 2] *)
Definition sq (a : value) : value := binop Float.mul a a.

(** [np.linspace(0, 1, n)] *)
Definition linspace01 (n : nat) : list fl :=
  match n with
  | O => []
  | S O => [Fin 0]
  | S m => map (fun i => Fin (INR i / INR m)) (seq 0 n)
  end.

(** [ndarray.sum()] *)
Definition np_sum (xs : list fl) : fl := fold_right Float.add (Fin 0) xs.

Definition dropna (xs : list fl) : list fl :=
  filter (fun x => negb (Float.is_nan x)) xs.

(** [Series.sum()], with pandas' default [skipna=True] *)
Definition pd_sum (xs : list fl) : fl := np_sum (dropna xs).

(** [Series.mean()], with pandas' default [skipna=True] *)
Definition pd_mean (xs : list fl) : fl :=
  (pd_sum xs / Fin (INR (List.length (dropna xs))))%fl.

Definition sum (a : value) : fl :=
  match a with
  | Scalar x => x
  | NDArray xs => np_sum xs
  | Series xs => pd_sum xs
  end.

Definition mean (a : value) : fl :=
  match a with
  | Scalar x => x
  | NDArray xs => (np_sum xs / Fin (INR (List.length xs)))%fl
  | Series xs => pd_mean xs
  end.

End Np.

Abbreviation value := Np.value.
Abbreviation Scalar := Np.Scalar.
Abbreviation NDArray := Np.NDArray.
Abbreviation Series := Np.Series.

Declare Scope np_scope.
Delimit Scope np_scope with np.
Bind Scope np_scope with Np.value.
Notation "a + b" := (Np.binop Float.add a b) : np_scope.
Notation "a - b" := (Np.binop Float.sub a b) : np_scope.
Notation "a * b" := (Np.binop Float.mul a b) : np_scope.
Notation "a / b" := (Np.binop Float.div a b) : np_scope.

(** ** The slice table

    One row per slice.  The six strength and geometry columns and the two
    centroid columns are always there; [shear_reinf] and [normal_reinf] are
    columns the table may lack. *)

Module Df.

Record Row : Type := mkRow {
  alpha : fl; w : fl; c : fl; phi : fl; u : fl; dl : fl;
  x_c : fl; y_cb : fl; shear_reinf : fl; normal_reinf : fl
}.

Record DataFrame : Type := mkDataFrame {
  rows : list Row;
  has_shear_reinf : bool;
  has_normal_reinf : bool
}.

Definition column (df : DataFrame) (name : string) : option (list fl) :=
  let col f := Some (map f (rows df)) in
  if (name =? "alpha")%string then col alpha
  else if (name =? "w")%string then col w
  else if (name =? "c")%string then col c
  else if (name =? "phi")%string then col phi
  else if (name =? "u")%string then col u
  else if (name =? "dl")%string then col dl
  else if (name =? "x_c")%string then col x_c
  else if (name =? "y_cb")%string then col y_cb
  else if (name =? "shear_reinf")%string then
    if has_shear_reinf df then col shear_reinf else None
  else if (name =? "normal_reinf")%string then
    if has_normal_reinf df then col normal_reinf else None
  else None.

End Df.

Abbreviation DataFrame := Df.DataFrame.

(** ** Python effects

    A call runs in a world holding the table object the caller passed as
    [df] and the bindings of the module's global namespace; it ends with a
    value or with a raised exception, and with the world it leaves behind. *)

Module Py.

Inductive exn : Type :=
| AttributeError
| KeyError
| UnboundLocalError
| ValueError
| GEOSException.

Inductive result (A : Type) : Type :=
| Ok (a : A)
| Raise (e : exn).
Arguments Ok {A} a.
Arguments Raise {A} e.

Record World : Type := mkWorld {
  table : DataFrame;
  module_globals : list (string * value)
}.

Definition M (A : Type) : Type := World -> result A * World.

Definition ret {A} (a : A) : M A := fun s => (Ok a, s).

Definition raise {A} (e : exn) : M A := fun s => (Raise e, s).

Definition bind {A B} (m : M A) (k : A -> M B) : M B :=
  fun s => match m s with
           | (Ok a, s') => k a s'
           | (Raise e, s') => (Raise e, s')
           end.

Definition lift {A} (r : result A) : M A := fun s => (r, s).

(** [df[name]] *)
Definition getitem (name : string) : M value :=
  fun s => match Df.column (table s) name with
           | Some xs => (Ok (Series xs), s)
           | None => (Raise KeyError, s)
           end.

(** [df.get(name, default)] *)
Definition get (name : string) (default : fl) : M value :=
  fun s => match Df.column (table s) name with
           | Some xs => (Ok (Series xs), s)
           | None => (Ok (Scalar default), s)
           end.

(** [len(df)] *)
Definition len : M nat := fun s => (Ok (List.length (Df.rows (table s))), s).

(** [obj.values]: the array under a Series; a plain number has no such
    attribute. *)
Definition values (v : value) : M value :=
  match v with
  | Series xs | NDArray xs => ret (NDArray xs)
  | Scalar _ => raise AttributeError
  end.

End Py.

Notation "x <- m ;; k" := (Py.bind m (fun x => k))
  (at level 61, m at next level, right associativity).

(** ** solve.py *)

Module Solve.

Import Py.
Local Open Scope np_scope.

Definition oms : M (fl * value) :=
  alpha <- getitem "alpha" ;;
  let alpha_rad := Np.radians alpha in
  let cos_alpha := Np.cos alpha_rad in
  let sin_alpha := Np.sin alpha_rad in
  let cos2_alpha := Np.sq cos_alpha in
  W <- getitem "w" ;; W <- values W ;;
  shear_reinf <- get "shear_reinf" (Fin 0) ;; shear_reinf <- values shear_reinf ;;
  normal_reinf <- get "normal_reinf" (Fin 0) ;; normal_reinf <- values normal_reinf ;;
  c <- getitem "c" ;; c <- values c ;;
  phi <- getitem "phi" ;; phi <- values (Np.radians phi) ;;
  u <- getitem "u" ;; u <- values u ;;
  dl <- getitem "dl" ;; dl <- values dl ;;
  let N := W * cos_alpha - u * dl * cos2_alpha + normal_reinf in
  let numerator := c * dl + N * Np.tan phi in
  let denominator := W * sin_alpha - shear_reinf in
  let FS := if Float.neb (Np.sum denominator) (Fin 0)
            then (Np.sum numerator / Np.sum denominator)%fl
            else Float.inf in
  ret (FS, N).

(** The [for] loop of [bishop]: [n] iterations are left, [F_calc] is [None]
    while the name is still unbound. *)
Fixpoint bishop_loop (cos_alpha sin_alpha tan_phi num : value)
    (denominator tol : fl) (n : nat) (F_guess : fl) (F_calc : option fl)
    : option fl * bool :=
  match n with
  | O => (F_calc, false)
  | S n' =>
      let denom := cos_alpha + (sin_alpha * tan_phi) / Scalar F_guess in
      let terms := num / denom in
      let F_calc := (Np.sum terms / denominator)%fl in
      if Float.ltb (Float.abs (F_calc - F_guess)) tol then (Some F_calc, true)
      else bishop_loop cos_alpha sin_alpha tan_phi num denominator tol
             n' F_calc (Some F_calc)
  end.

Definition bishop (tol : fl) (max_iter : nat) : M (fl * value * bool) :=
  alpha <- getitem "alpha" ;;
  let alpha_rad := Np.radians alpha in
  let cos_alpha := Np.cos alpha_rad in
  let sin_alpha := Np.sin alpha_rad in
  let cos2_alpha := Np.sq cos_alpha in
  phi <- getitem "phi" ;;
  let tan_phi := Np.tan (Np.radians phi) in
  W <- getitem "w" ;;
  shear_reinf <- get "shear_reinf" (Fin 0) ;;
  normal_reinf <- get "normal_reinf" (Fin 0) ;;
  c <- getitem "c" ;;
  dl <- getitem "dl" ;;
  u <- getitem "u" ;;
  let denominator := Np.sum (W * sin_alpha - shear_reinf) in
  let N := W * cos_alpha - u * dl * cos2_alpha + normal_reinf in
  let num := c * dl + N * tan_phi in
  match bishop_loop cos_alpha sin_alpha tan_phi num denominator tol
          max_iter (Fin 1) None with
  | (Some F_calc, converge) => ret (F_calc, N, converge)
  | (None, _) => raise UnboundLocalError
  end.

(** The [for] loop of [spencer].  The first [num] and [denom] are computed
    and never read, as in the source. *)
Fixpoint spencer_loop (W shear_reinf normal_reinf c dl u : value)
    (sin_alpha cos_alpha tan_phi phi_rad : value) (tol : fl)
    (n : nat) (F beta : fl) : fl * fl :=
  match n with
  | O => (F, Float.degrees beta)
  | S n' =>
      let sin_beta := Scalar (Float.sin beta) in
      let cos_beta := Scalar (Float.cos beta) in
      let denom := cos_alpha * cos_beta + sin_alpha * sin_beta * Np.tan phi_rad in
      let effective_W := W + normal_reinf / cos_alpha in
      let num := c * dl * cos_beta
                 + (effective_W - u * dl)
                   * (cos_alpha * cos_beta - sin_alpha * sin_beta) * tan_phi in
      let num := c * dl * cos_beta
                 + (W - u * dl)
                   * (cos_alpha * cos_beta - sin_alpha * sin_beta)
                   * Np.tan phi_rad in
      let F_new := (Np.sum num / Np.sum (W * sin_alpha - shear_reinf))%fl in
      let sin_beta_new :=
        (W * sin_alpha - num / Scalar F_new * sin_alpha * tan_phi) / W in
      let beta_new :=
        Float.arcsin (Float.clip (Np.mean sin_beta_new) (Fin (-1)) (Fin 1)) in
      if Float.ltb (Float.abs (F_new - F)) tol
         && Float.ltb (Float.abs (beta_new - beta)) tol
      then (F_new, Float.degrees beta_new)
      else spencer_loop W shear_reinf normal_reinf c dl u
             sin_alpha cos_alpha tan_phi phi_rad tol n' F_new beta_new
  end.

Definition spencer (tol : fl) (max_iter : nat) : M (fl * fl) :=
  alpha <- getitem "alpha" ;;
  let alpha_rad := Np.radians alpha in
  phi <- getitem "phi" ;;
  let phi_rad := Np.radians phi in
  let tan_phi := Np.tan phi_rad in
  W <- getitem "w" ;; W <- values W ;;
  shear_reinf <- get "shear_reinf" (Fin 0) ;;
  normal_reinf <- get "normal_reinf" (Fin 0) ;;
  c <- getitem "c" ;; c <- values c ;;
  dl <- getitem "dl" ;; dl <- values dl ;;
  u <- getitem "u" ;; u <- values u ;;
  let sin_alpha := Np.sin alpha_rad in
  let cos_alpha := Np.cos alpha_rad in
  let cos2_alpha := Np.sq cos_alpha in
  ret (spencer_loop W shear_reinf normal_reinf c dl u
         sin_alpha cos_alpha tan_phi phi_rad tol max_iter (Fin 1) (Fin 0)).

(** The two inner solves of [spencer_moment]; both leave their loop with
    [break] and return [F], the iterate before the last one computed. *)
Fixpoint fs_force_loop (w u dl c normal_reinf shear_reinf : value)
    (sin_alpha cos_alpha cos2_alpha tan_phi sin_beta cos_beta : value)
    (tol : fl) (n : nat) (F : fl) : fl :=
  match n with
  | O => F
  | S n' =>
      let N := w * cos_alpha - u * dl * cos2_alpha + normal_reinf in
      let denom := cos_alpha * cos_beta + sin_alpha * sin_beta * tan_phi in
      let num := c * dl * cos_beta
                 + N * (cos_alpha * cos_beta - sin_alpha * sin_beta) * tan_phi in
      let T := w * sin_alpha - shear_reinf in
      let F_new := (Np.sum num / Np.sum T)%fl in
      if Float.ltb (Float.abs (F_new - F)) tol then F
      else fs_force_loop w u dl c normal_reinf shear_reinf
             sin_alpha cos_alpha cos2_alpha tan_phi sin_beta cos_beta tol n' F_new
  end.

Fixpoint fs_moment_loop (w u dl c normal_reinf x_c y_cb : value)
    (cos_alpha cos2_alpha tan_phi : value) (tol : fl) (n : nat) (F : fl) : fl :=
  match n with
  | O => F
  | S n' =>
      let N := w * cos_alpha - u * dl * cos2_alpha + normal_reinf in
      let S := c * dl + N * tan_phi / Scalar F in
      let M_resist := Np.sum (S * y_cb) in
      let M_drive := Np.sum (w * x_c) in
      let F_new := (M_resist / M_drive)%fl in
      if Float.ltb (Float.abs (F_new - F)) tol then F
      else fs_moment_loop w u dl c normal_reinf x_c y_cb
             cos_alpha cos2_alpha tan_phi tol n' F_new
  end.

(** [minimize_scalar] is scipy's bounded scalar minimiser: from the objective,
    the bounds and [xatol] it yields [result.x], or raises. *)
Definition spencer_moment
    (minimize_scalar : (fl -> fl) -> fl * fl -> fl -> result fl)
    (beta_bounds : fl * fl) (tol : fl) (max_iter : nat) : M (fl * fl) :=
  alpha <- getitem "alpha" ;;
  let alpha := Np.radians alpha in
  phi <- getitem "phi" ;;
  let phi := Np.radians phi in
  let tan_phi := Np.tan phi in
  c <- getitem "c" ;; c <- values c ;;
  dl <- getitem "dl" ;; dl <- values dl ;;
  w <- getitem "w" ;; w <- values w ;;
  u <- getitem "u" ;; u <- values u ;;
  x_c <- getitem "x_c" ;; x_c <- values x_c ;;
  y_cb <- getitem "y_cb" ;; y_cb <- values y_cb ;;
  shear_reinf <- get "shear_reinf" (Fin 0) ;; shear_reinf <- values shear_reinf ;;
  normal_reinf <- get "normal_reinf" (Fin 0) ;; normal_reinf <- values normal_reinf ;;
  let sin_alpha := Np.sin alpha in
  let cos_alpha := Np.cos alpha in
  let cos2_alpha := Np.sq cos_alpha in
  let fs_force beta_rad :=
    let sin_beta := Scalar (Float.sin beta_rad) in
    let cos_beta := Scalar (Float.cos beta_rad) in
    fs_force_loop w u dl c normal_reinf shear_reinf
      sin_alpha cos_alpha cos2_alpha tan_phi sin_beta cos_beta tol max_iter (Fin 1) in
  let fs_moment (beta_rad : fl) :=
    fs_moment_loop w u dl c normal_reinf x_c y_cb
      cos_alpha cos2_alpha tan_phi tol max_iter (Fin 1) in
  let fs_difference beta_deg :=
    let beta_rad := Float.radians beta_deg in
    Float.abs (fs_force beta_rad - fs_moment beta_rad) in
  beta_deg <- lift (minimize_scalar fs_difference beta_bounds tol) ;;
  let beta_rad := Float.radians beta_deg in
  let FS_final := fs_force beta_rad in
  ret (FS_final, beta_deg).

Fixpoint janbu_simple_loop (W shear_reinf normal_reinf c dl u : value)
    (sin_alpha cos_alpha tan_phi : value) (tol : fl) (n : nat) (F : fl) : fl :=
  match n with
  | O => F
  | S n' =>
      let N := W * cos_alpha + normal_reinf in
      let S := c * dl + (N - u * dl) * tan_phi / Scalar F in
      let T := W * sin_alpha - shear_reinf in
      let F_new := (Np.sum S / Np.sum T)%fl in
      if Float.ltb (Float.abs (F_new - F)) tol then F_new
      else janbu_simple_loop W shear_reinf normal_reinf c dl u
             sin_alpha cos_alpha tan_phi tol n' F_new
  end.

Definition janbu_simple (tol : fl) (max_iter : nat) : M fl :=
  alpha <- getitem "alpha" ;;
  let alpha_rad := Np.radians alpha in
  phi <- getitem "phi" ;;
  let phi_rad := Np.radians phi in
  let tan_phi := Np.tan phi_rad in
  W <- getitem "w" ;;
  shear_reinf <- get "shear_reinf" (Fin 0) ;;
  normal_reinf <- get "normal_reinf" (Fin 0) ;;
  c <- getitem "c" ;; c <- values c ;;
  dl <- getitem "dl" ;; dl <- values dl ;;
  u <- getitem "u" ;; u <- values u ;;
  let sin_alpha := Np.sin alpha_rad in
  let cos_alpha := Np.cos alpha_rad in
  ret (janbu_simple_loop W shear_reinf normal_reinf c dl u
         sin_alpha cos_alpha tan_phi tol max_iter (Fin 1)).

Fixpoint janbu_corrected_loop (W shear_reinf normal_reinf c dl u : value)
    (sin_alpha cos_alpha tan_phi : value) (tol : fl)
    (n : nat) (F lambda_ : fl) : fl * fl * bool :=
  match n with
  | O => (F, lambda_, false)
  | S n' =>
      let m := Scalar (Fin 1) + Scalar lambda_ * tan_phi / Scalar F in
      let N := W * cos_alpha + normal_reinf in
      let S := c * dl + (N - u * dl) * tan_phi / Scalar F in
      let R := S / m in
      let T := W * sin_alpha - shear_reinf in
      let F_new := (Np.sum R / Np.sum T)%fl in
      let lambda_new := (Np.sum (R * sin_alpha) / Np.sum (R * cos_alpha))%fl in
      if Float.ltb (Float.abs (F_new - F)) tol
         && Float.ltb (Float.abs (lambda_new - lambda_)) tol
      then (F, lambda_, true)
      else janbu_corrected_loop W shear_reinf normal_reinf c dl u
             sin_alpha cos_alpha tan_phi tol n' F_new lambda_new
  end.

Definition janbu_corrected (tol : fl) (max_iter : nat) : M (fl * fl * bool) :=
  alpha <- getitem "alpha" ;;
  let alpha_rad := Np.radians alpha in
  phi <- getitem "phi" ;;
  let phi_rad := Np.radians phi in
  let tan_phi := Np.tan phi_rad in
  W <- getitem "w" ;;
  shear_reinf <- get "shear_reinf" (Fin 0) ;;
  normal_reinf <- get "normal_reinf" (Fin 0) ;;
  c <- getitem "c" ;; c <- values c ;;
  dl <- getitem "dl" ;; dl <- values dl ;;
  u <- getitem "u" ;; u <- values u ;;
  let sin_alpha := Np.sin alpha_rad in
  let cos_alpha := Np.cos alpha_rad in
  ret (janbu_corrected_loop W shear_reinf normal_reinf c dl u
         sin_alpha cos_alpha tan_phi tol max_iter (Fin 1) (Fin 0)).

Fixpoint morgenstern_price_loop (W shear_reinf normal_reinf c dl u : value)
    (sin_alpha cos_alpha tan_phi psi : value) (tol : fl)
    (n : nat) (F lam : fl) : fl * fl * bool :=
  match n with
  | O => (F, lam, false)
  | S n' =>
      let m := Scalar (Fin 1) + Scalar lam * psi * tan_phi / Scalar F in
      let N := W * cos_alpha + normal_reinf in
      let S := c * dl + (N - u * dl) * tan_phi / Scalar F in
      let R := S / m in
      let T := W * sin_alpha - shear_reinf in
      let F_new := (Np.sum R / Np.sum T)%fl in
      let num := Np.sum (R * psi * sin_alpha) in
      let den := Np.sum (R * psi * cos_alpha) in
      let lam_new := if Float.neb den (Fin 0) then (num / den)%fl else Fin 0 in
      if Float.ltb (Float.abs (F_new - F)) tol
         && Float.ltb (Float.abs (lam_new - lam)) tol
      then (F, lam, true)
      else morgenstern_price_loop W shear_reinf normal_reinf c dl u
             sin_alpha cos_alpha tan_phi psi tol n' F_new lam_new
  end.

(** [lambda x: 1.0], the default of the parameter [function] *)
Definition default_function (x : fl) : fl := Fin 1.

Definition morgenstern_price (function : fl -> fl) (tol : fl) (max_iter : nat)
    : M (fl * fl * bool) :=
  alpha <- getitem "alpha" ;;
  let alpha_rad := Np.radians alpha in
  phi <- getitem "phi" ;;
  let phi_rad := Np.radians phi in
  let tan_phi := Np.tan phi_rad in
  W <- getitem "w" ;;
  shear_reinf <- get "shear_reinf" (Fin 0) ;;
  normal_reinf <- get "normal_reinf" (Fin 0) ;;
  c <- getitem "c" ;; c <- values c ;;
  dl <- getitem "dl" ;; dl <- values dl ;;
  u <- getitem "u" ;; u <- values u ;;
  let sin_alpha := Np.sin alpha_rad in
  let cos_alpha := Np.cos alpha_rad in
  n <- len ;;
  let x_norm := Np.linspace01 n in
  let psi := NDArray (map function x_norm) in
  ret (morgenstern_price_loop W shear_reinf normal_reinf c dl u
         sin_alpha cos_alpha tan_phi psi tol max_iter (Fin 1) (Fin 0)).

End Solve.

(** ** shapely

    The part of shapely's [LineString] and [Point] that
    [build_ground_surface] calls, after the library's documentation and the
    linear-referencing code of GEOS beneath it.  Coordinates are finite. *)

Module Shapely.

Definition Point : Type := (R * R)%type.

Record LineString : Type := mkLineString { coords : list Point }.

Definition Rltb (a b : R) : bool := if Rlt_dec a b then true else false.
Definition Rleb (a b : R) : bool := if Rle_dec a b then true else false.
Definition Reqb (a b : R) : bool := if Req_EM_T a b then true else false.

(** [LineString(coordinates)]: no coordinates make the empty line, two or
    more a line; exactly one is refused (GEOS: "point array must contain 0
    or >1 elements"; shapely 1.x raised ValueError there). *)
Definition new (coordinates : list Point) : Py.result LineString :=
  match coordinates with
  | [_] => Py.Raise Py.GEOSException
  | _ => Py.Ok (mkLineString coordinates)
  end.

Definition distance (p q : Point) : R :=
  sqrt ((fst q - fst p) * (fst q - fst p) + (snd q - snd p) * (snd q - snd p)).

(** Position of the point of segment [a b] nearest to [p], as a fraction of
    the segment, clamped to the segment. *)
Definition projection_factor (a b p : Point) : R :=
  let dx := fst b - fst a in
  let dy := snd b - snd a in
  let len2 := dx * dx + dy * dy in
  if Reqb len2 0 then 0
  else
    let r := ((fst p - fst a) * dx + (snd p - snd a) * dy) / len2 in
    if Rleb r 0 then 0 else if Rleb 1 r then 1 else r.

Definition point_along (a b : Point) (t : R) : Point :=
  (fst a + t * (fst b - fst a), snd a + t * (snd b - snd a)).

Definition segment_distance (a b p : Point) : R :=
  distance p (point_along a b (projection_factor a b p)).

(** [line.length] *)
Fixpoint length_of (pts : list Point) : R :=
  match pts with
  | a :: (b :: _) as rest => distance a b + length_of rest
  | _ => 0
  end.

Definition length (line : LineString) : R := length_of (coords line).

(** The scan of [line.project]: segment by segment, keep the measure of the
    first segment that is strictly nearer than all before it. *)
Fixpoint project_from (pts : list Point) (p : Point)
    (min_distance : option R) (pt_measure segment_start : R) : R :=
  match pts with
  | a :: (b :: _) as rest =>
      let seg_distance := segment_distance a b p in
      let seg_measure :=
        segment_start + projection_factor a b p * distance a b in
      let nearer := match min_distance with
                    | None => true
                    | Some d => Rltb seg_distance d
                    end in
      if nearer && Rltb (-1) seg_measure
      then project_from rest p (Some seg_distance) seg_measure
             (segment_start + distance a b)
      else project_from rest p min_distance pt_measure
             (segment_start + distance a b)
  | _ => pt_measure
  end.

(** [line.project(p)]: distance along the line to its point nearest to [p].
    Coordinates are real numbers here, so the scan always yields a measure;
    the exception GEOS raises when float arithmetic overflows on very large
    coordinates has no counterpart: what is proved of the line
    [build_ground_surface] returns is stated for the runs that return. *)
Definition project (line : LineString) (p : Point) : R :=
  project_from (coords line) p None (-1) 0.

Fixpoint interpolate_from (pts : list Point) (d : R) : Point :=
  match pts with
  | a :: (b :: _) as rest =>
      let l := distance a b in
      if Rltb d l then point_along a b (d / l)
      else interpolate_from rest (d - l)
  | [a] => a
  | [] => (0, 0)
  end.

(** [line.interpolate(d)]: the point at distance [d] along the line; a
    negative [d] is measured back from the end. *)
Definition interpolate (line : LineString) (d : R) : Point :=
  if Rltb d 0
  then interpolate_from (coords line) (Rmax 0 (length line + d))
  else interpolate_from (coords line) d.

End Shapely.

(** ** utils.py (and, word for word, fileio.py) *)

Module Utils.

Import Shapely.

Definition point_eq_dec (p q : Point) : {p = q} + {p <> q}.
Proof.
  destruct p as [x y], q as [x' y'].
  destruct (Req_EM_T x x') as [->|Hx]; [destruct (Req_EM_T y y') as [->|Hy]|].
  - left; reflexivity.
  - right; intros H; apply Hy; now inversion H.
  - right; intros H; apply Hx; now inversion H.
Defined.

(** [set(...)]: the distinct points *)
Definition set_of (pts : list Point) : list Point := nodup point_eq_dec pts.

(** [sorted(..., key=...)] as an insertion sort on the order [leb] *)
Fixpoint insert_by (leb : Point -> Point -> bool) (p : Point)
    (l : list Point) : list Point :=
  match l with
  | [] => [p]
  | q :: l' => if leb p q then p :: q :: l' else q :: insert_by leb p l'
  end.

Definition sorted_by (leb : Point -> Point -> bool) (l : list Point)
    : list Point :=
  fold_right (insert_by leb) [] l.

(** Tuple comparison [(a1, a2) <= (b1, b2)] *)
Definition tuple_leb (a1 a2 b1 b2 : R) : bool :=
  Rltb a1 b1 || (Reqb a1 b1 && Rleb a2 b2).

(** [key=lambda p: (p[0], -p[1])] *)
Definition key_leb (p q : Point) : bool :=
  tuple_leb (fst p) (- snd p) (fst q) (- snd q).

(** Order of [sorted(top_candidates.items())] *)
Definition item_leb (p q : Point) : bool :=
  tuple_leb (fst p) (snd p) (fst q) (snd q).

(** The dict [top_candidates], in insertion order *)
Definition dict : Type := list (R * R).

Fixpoint dict_get (d : dict) (x : R) : option R :=
  match d with
  | [] => None
  | (k, v) :: d' => if Reqb k x then Some v else dict_get d' x
  end.

Fixpoint dict_set (d : dict) (x y : R) : dict :=
  match d with
  | [] => [(x, y)]
  | (k, v) :: d' => if Reqb k x then (k, y) :: d' else (k, v) :: dict_set d' x y
  end.

(** Step 2: keep the highest y of each x *)
Fixpoint top_candidates_loop (all_points : list Point) (top_candidates : dict)
    : dict :=
  match all_points with
  | [] => top_candidates
  | (x, y) :: rest =>
      match dict_get top_candidates x with
      | None => top_candidates_loop rest (dict_set top_candidates x y)
      | Some y0 =>
          if Rltb y0 y
          then top_candidates_loop rest (dict_set top_candidates x y)
          else top_candidates_loop rest top_candidates
      end
  end.

(** The inner loop of step 3: [Ok keep], or the exception of a line that
    cannot be built. *)
Fixpoint keep_loop (x y : R) (profile_lines : list (list Point))
    : Py.result bool :=
  match profile_lines with
  | [] => Py.Ok true
  | other_line :: rest =>
      match Shapely.new other_line with
      | Py.Raise e => Py.Raise e
      | Py.Ok line =>
          if Reqb (length line) 0 then keep_loop x y rest
          else
            let proj := project line (x, 0) in
            if Reqb proj 0 || Reqb proj (length line) then keep_loop x y rest
            else
              let ipt := interpolate line proj in
              if Rltb (y + / 1000000) (snd ipt) then Py.Ok false
              else keep_loop x y rest
      end
  end.

(** The outer loop of step 3 *)
Fixpoint surface_loop (candidates : list Point)
    (profile_lines : list (list Point)) (top_surface_points : list Point)
    : Py.result (list Point) :=
  match candidates with
  | [] => Py.Ok top_surface_points
  | (x, y) :: rest =>
      match keep_loop x y profile_lines with
      | Py.Raise e => Py.Raise e
      | Py.Ok keep =>
          surface_loop rest profile_lines
            (if keep then top_surface_points ++ [(x, y)]
             else top_surface_points)
      end
  end.

(** Step 1 *)
Definition all_points (profile_lines : list (list Point)) : list Point :=
  sorted_by key_leb (set_of (List.concat profile_lines)).

(** Step 2 *)
Definition top_candidates (profile_lines : list (list Point)) : dict :=
  top_candidates_loop (all_points profile_lines) [].

(** Step 3 *)
Definition top_surface_points (profile_lines : list (list Point))
    : Py.result (list Point) :=
  surface_loop (sorted_by item_leb (top_candidates profile_lines))
    profile_lines [].

Definition build_ground_surface (profile_lines : list (list Point))
    : Py.result LineString :=
  match top_surface_points profile_lines with
  | Py.Raise e => Py.Raise e
  | Py.Ok top_surface_points =>
      if (2 <=? List.length top_surface_points)%nat
      then Shapely.new top_surface_points
      else Shapely.new []
  end.

End Utils.

(** [fileio.build_ground_surface] is the same text as the one of utils.py. *)
Module Fileio.
Definition build_ground_surface := Utils.build_ground_surface.
End Fileio.

(** ** Columns of a table, as the solvers read them *)

Module Table.

(** [df[name]] and [df[name].values] of the column with accessor [f] *)
Definition series (f : Df.Row -> fl) (df : DataFrame) : value :=
  Series (map f (Df.rows df)).

Definition array (f : Df.Row -> fl) (df : DataFrame) : value :=
  NDArray (map f (Df.rows df)).

(** [df.get('shear_reinf', 0)] and [df.get('normal_reinf', 0)] *)
Definition get_shear_reinf (df : DataFrame) : value :=
  if Df.has_shear_reinf df then series Df.shear_reinf df else Scalar (Fin 0).

Definition get_normal_reinf (df : DataFrame) : value :=
  if Df.has_normal_reinf df then series Df.normal_reinf df else Scalar (Fin 0).

Definition cos_alpha (df : DataFrame) : value :=
  Np.cos (Np.radians (series Df.alpha df)).

Definition sin_alpha (df : DataFrame) : value :=
  Np.sin (Np.radians (series Df.alpha df)).

Definition tan_phi (df : DataFrame) : value :=
  Np.tan (Np.radians (series Df.phi df)).

(** The table with its [normal_reinf] column replaced: present or not, and
    holding [f r] in the row [r]. *)
Definition set_normal_reinf (present : bool) (f : Df.Row -> fl)
    (df : DataFrame) : DataFrame :=
  Df.mkDataFrame
    (map (fun r => Df.mkRow (Df.alpha r) (Df.w r) (Df.c r) (Df.phi r)
                     (Df.u r) (Df.dl r) (Df.x_c r) (Df.y_cb r)
                     (Df.shear_reinf r) (f r))
         (Df.rows df))
    (Df.has_shear_reinf df) present.

End Table.

(** ** Bishop's iteration, spelled out on the table *)

Module Bishop.

Import Table.
Local Open Scope np_scope.

(** [denominator], [N] and [num] of [bishop], computed before the loop *)
Definition denominator (df : DataFrame) : fl :=
  Np.sum (series Df.w df * sin_alpha df - get_shear_reinf df).

Definition N (df : DataFrame) : value :=
  series Df.w df * cos_alpha df
  - series Df.u df * series Df.dl df * Np.sq (cos_alpha df)
  + get_normal_reinf df.

Definition num (df : DataFrame) : value :=
  series Df.c df * series Df.dl df + N df * tan_phi df.

(** [F_calc] of one pass through the loop body, from [F_guess] *)
Definition F_calc (df : DataFrame) (F_guess : fl) : fl :=
  let denom := cos_alpha df + (sin_alpha df * tan_phi df) / Scalar F_guess in
  let terms := num df / denom in
  (Np.sum terms / denominator df)%fl.

(** The value of [F_calc] after [k] passes; [F_guess] starts at 1.0. *)
Definition iterate (df : DataFrame) (k : nat) : fl :=
  Nat.iter k (F_calc df) (Fin 1).

(** [abs(F_calc - F_guess) < tol] at pass [k] *)
Definition within_tol (df : DataFrame) (tol : fl) (k : nat) : bool :=
  Float.ltb (Float.abs (iterate df k - iterate df (pred k))) tol.

End Bishop.

(** ** The closed form of the Ordinary Method of Slices, slice by slice *)

Module Oms.

Local Open Scope fl_scope.

(** [N = w cos(alpha) - u dl cos^2(alpha) + normal_reinf] *)
Definition N_slice (r : Df.Row) : fl :=
  let cos_alpha := Float.cos (Float.radians (Df.alpha r)) in
  Df.w r * cos_alpha - Df.u r * Df.dl r * (cos_alpha * cos_alpha)
  + Df.normal_reinf r.

(** [c dl + N tan(phi)] *)
Definition resisting (r : Df.Row) : fl :=
  Df.c r * Df.dl r + N_slice r * Float.tan (Float.radians (Df.phi r)).

(** [w sin(alpha) - shear_reinf] *)
Definition driving (r : Df.Row) : fl :=
  Df.w r * Float.sin (Float.radians (Df.alpha r)) - Df.shear_reinf r.

(** The quotient of the two sums, and infinity when the driving sum is zero *)
Definition FS (rows : list Df.Row) : fl :=
  if Float.eqb (Np.pd_sum (map driving rows)) (Fin 0) then PInf
  else Np.pd_sum (map resisting rows) / Np.pd_sum (map driving rows).

End Oms.

(** The table of one slice [w=100, alpha=20, c=5, phi=25, u=0, dl=2] *)
Definition one_slice : Df.Row :=
  Df.mkRow (Fin 20) (Fin 100) (Fin 5) (Fin 25) (Fin 0) (Fin 2)
           (Fin 0) (Fin 0) (Fin 0) (Fin 0).

(** ** When a profile line hides a candidate point *)

Module Dominance.
Import Shapely.

(** The line is built, has a length, the projection of [(x, 0)] on it is at
    neither end, and the point of the line there is higher than [y] by more
    than the tolerance. *)
Definition dominates (line : list Point) (x y : R) : Prop :=
  exists ls, Shapely.new line = Py.Ok ls
    /\ length ls <> 0
    /\ project ls (x, 0) <> 0
    /\ project ls (x, 0) <> length ls
    /\ y + / 1000000 < snd (interpolate ls (project ls (x, 0))).

(** The candidate's source lines are those it is a vertex of. *)
Definition dominated_by_other_line (profile_lines : list (list Point))
    (x y : R) : Prop :=
  exists line, In line profile_lines /\ ~ In (x, y) line /\ dominates line x y.

Definition dominated_by_some_line (profile_lines : list (list Point))
    (x y : R) : Prop :=
  exists line, In line profile_lines /\ dominates line x y.
End Dominance.

(** ** The zero-denominator guard of Morgenstern-Price *)

Module LambdaGuard.

Local Open Scope np_scope.

(** Along the run of [morgenstern_price]'s loop from [(F, lam)], the
    denominator [den] of the lambda update is never found equal to zero. *)
Fixpoint unused (W shear_reinf normal_reinf c dl u : value)
    (sin_alpha cos_alpha tan_phi psi : value) (tol : fl)
    (n : nat) (F lam : fl) : Prop :=
  match n with
  | O => True
  | S n' =>
      let m := Scalar (Fin 1) + Scalar lam * psi * tan_phi / Scalar F in
      let N := W * cos_alpha + normal_reinf in
      let S := c * dl + (N - u * dl) * tan_phi / Scalar F in
      let R := S / m in
      let T := W * sin_alpha - shear_reinf in
      let F_new := (Np.sum R / Np.sum T)%fl in
      let num := Np.sum (R * psi * sin_alpha) in
      let den := Np.sum (R * psi * cos_alpha) in
      let lam_new := (num / den)%fl in
      Float.neb den (Fin 0) = true
      /\ (if Float.ltb (Float.abs (F_new - F)) tol
             && Float.ltb (Float.abs (lam_new - lam)) tol
          then True
          else unused W shear_reinf normal_reinf c dl u
                 sin_alpha cos_alpha tan_phi psi tol n' F_new lam_new)
  end.

(** The same for a call of [morgenstern_price] with the default [function]
    on the table [df] *)
Definition unused_on (df : DataFrame) (tol : fl) (max_iter : nat) : Prop :=
  unused (Table.series Df.w df) (Table.get_shear_reinf df)
    (Table.get_normal_reinf df) (Table.array Df.c df) (Table.array Df.dl df)
    (Table.array Df.u df) (Table.sin_alpha df) (Table.cos_alpha df)
    (Table.tan_phi df)
    (NDArray (map Solve.default_function
                (Np.linspace01 (List.length (Df.rows df)))))
    tol max_iter (Fin 1) (Fin 0).

End LambdaGuard.

(** ** Tables of finite numbers *)

Module Finite.

Record slice : Type := mkSlice {
  alpha : R; w : R; c : R; phi : R; u : R; dl : R;
  x_c : R; y_cb : R; shear_reinf : R; normal_reinf : R
}.

Definition row (r : slice) : Df.Row :=
  Df.mkRow (Fin (alpha r)) (Fin (w r)) (Fin (c r)) (Fin (phi r)) (Fin (u r))
           (Fin (dl r)) (Fin (x_c r)) (Fin (y_cb r)) (Fin (shear_reinf r))
           (Fin (normal_reinf r)).

Definition table (l : list slice) (has_shear_reinf has_normal_reinf : bool)
    : DataFrame :=
  Df.mkDataFrame (map row l) has_shear_reinf has_normal_reinf.

Definition Rsum (l : list R) : R := fold_right Rplus 0 l.

Definition cos_deg (a : R) : R := Rtrigo_def.cos (a * (PI / 180)).
Definition sin_deg (a : R) : R := Rtrigo_def.sin (a * (PI / 180)).

(** [w sin(alpha) - shear_reinf], the reinforcement being 0 without its column *)
Definition driving (has_shear_reinf : bool) (r : slice) : R :=
  w r * sin_deg (alpha r) - (if has_shear_reinf then shear_reinf r else 0).

(** [w cos(alpha) - u dl cos^2(alpha) + normal_reinf] *)
Definition normal_force (has_normal_reinf : bool) (r : slice) : R :=
  w r * cos_deg (alpha r)
  - u r * dl r * (cos_deg (alpha r) * cos_deg (alpha r))
  + (if has_normal_reinf then normal_reinf r else 0).

(** Sum of [c dl / cos(alpha)] over the driving sum *)
Definition bishop_undrained (l : list slice) (has_shear_reinf : bool) : R :=
  Rsum (map (fun r => c r * dl r / cos_deg (alpha r)) l)
  / Rsum (map (driving has_shear_reinf) l).

(** Sum of [c dl] over the driving sum *)
Definition oms_undrained (l : list slice) : R :=
  Rsum (map (fun r => c r * dl r) l) / Rsum (map (driving true) l).

(** [tan(phi) = 0] on every slice *)
Definition frictionless (l : list slice) : Prop :=
  forall r, In r l -> Float.tan (Float.radians (Fin (phi r))) = Fin 0.

End Finite.

(** * More of the solvers and of [load_globals] *)

Module Replace.

(** The table with its centroid columns [x_c] and [y_cb] replaced *)
Definition set_centroids (fx fy : Df.Row -> fl) (df : DataFrame) : DataFrame :=
  Df.mkDataFrame
    (map (fun r => Df.mkRow (Df.alpha r) (Df.w r) (Df.c r) (Df.phi r)
                     (Df.u r) (Df.dl r) (fx r) (fy r)
                     (Df.shear_reinf r) (Df.normal_reinf r))
         (Df.rows df))
    (Df.has_shear_reinf df) (Df.has_normal_reinf df).

(** The table with both reinforcement columns present, a missing one filled
    with zeros *)
Definition fill_reinforcement (df : DataFrame) : DataFrame :=
  Df.mkDataFrame
    (map (fun r => Df.mkRow (Df.alpha r) (Df.w r) (Df.c r) (Df.phi r)
                     (Df.u r) (Df.dl r) (Df.x_c r) (Df.y_cb r)
                     (if Df.has_shear_reinf df then Df.shear_reinf r
                      else Fin 0)
                     (if Df.has_normal_reinf df then Df.normal_reinf r
                      else Fin 0))
         (Df.rows df))
    true true.

End Replace.

Module SpencerMoment.

Import Table.
Local Open Scope np_scope.

(** [F_new] of the loop of [fs_force]; it does not depend on [F]. *)
Definition F_new (df : DataFrame) (beta_rad : fl) : fl :=
  let sin_beta := Scalar (Float.sin beta_rad) in
  let cos_beta := Scalar (Float.cos beta_rad) in
  let N := array Df.w df * cos_alpha df
           - array Df.u df * array Df.dl df * Np.sq (cos_alpha df)
           + array Df.normal_reinf df in
  let num := array Df.c df * array Df.dl df * cos_beta
             + N * (cos_alpha df * cos_beta - sin_alpha df * sin_beta)
               * tan_phi df in
  let T := array Df.w df * sin_alpha df - array Df.shear_reinf df in
  (Np.sum num / Np.sum T)%fl.

(** The nested functions [fs_force], [fs_moment] and [fs_difference] *)
Definition fs_force (df : DataFrame) (tol : fl) (max_iter : nat)
    (beta_rad : fl) : fl :=
  Solve.fs_force_loop (array Df.w df) (array Df.u df) (array Df.dl df)
    (array Df.c df) (array Df.normal_reinf df) (array Df.shear_reinf df)
    (sin_alpha df) (cos_alpha df) (Np.sq (cos_alpha df)) (tan_phi df)
    (Scalar (Float.sin beta_rad)) (Scalar (Float.cos beta_rad))
    tol max_iter (Fin 1).

Definition fs_moment (df : DataFrame) (tol : fl) (max_iter : nat)
    (beta_rad : fl) : fl :=
  Solve.fs_moment_loop (array Df.w df) (array Df.u df) (array Df.dl df)
    (array Df.c df) (array Df.normal_reinf df) (array Df.x_c df)
    (array Df.y_cb df) (cos_alpha df) (Np.sq (cos_alpha df)) (tan_phi df)
    tol max_iter (Fin 1).

Definition fs_difference (df : DataFrame) (tol : fl) (max_iter : nat)
    (beta_deg : fl) : fl :=
  let beta_rad := Float.radians beta_deg in
  Float.abs (fs_force df tol max_iter beta_rad
             - fs_moment df tol max_iter beta_rad).

End SpencerMoment.

Module Janbu.

Import Table.
Local Open Scope np_scope.

(** [F_new] of one pass of [janbu_simple], from [F] *)
Definition F_new (df : DataFrame) (F : fl) : fl :=
  let N := series Df.w df * cos_alpha df + get_normal_reinf df in
  let S := array Df.c df * array Df.dl df
           + (N - array Df.u df * array Df.dl df) * tan_phi df / Scalar F in
  let T := series Df.w df * sin_alpha df - get_shear_reinf df in
  (Np.sum S / Np.sum T)%fl.

(** The value of [F] after [k] passes of [janbu_simple] *)
Definition iterate (df : DataFrame) (k : nat) : fl :=
  Nat.iter k (F_new df) (Fin 1).

(** [abs(F_new - F) < tol] at pass [k] *)
Definition within_tol (df : DataFrame) (tol : fl) (k : nat) : bool :=
  Float.ltb (Float.abs (iterate df k - iterate df (pred k))) tol.

(** [(F_new, lam_new)] of one pass of [morgenstern_price], from [(F, lam)],
    for the sampled shape [psi] *)
Definition step_with (psi : value) (df : DataFrame) (st : fl * fl) : fl * fl :=
  let F := fst st in
  let lam := snd st in
  let m := Scalar (Fin 1) + Scalar lam * psi * tan_phi df / Scalar F in
  let N := series Df.w df * cos_alpha df + get_normal_reinf df in
  let S := array Df.c df * array Df.dl df
           + (N - array Df.u df * array Df.dl df) * tan_phi df / Scalar F in
  let R := S / m in
  let T := series Df.w df * sin_alpha df - get_shear_reinf df in
  let F_new := (Np.sum R / Np.sum T)%fl in
  let num := Np.sum (R * psi * sin_alpha df) in
  let den := Np.sum (R * psi * cos_alpha df) in
  let lam_new := if Float.neb den (Fin 0) then (num / den)%fl else Fin 0 in
  (F_new, lam_new).

(** [(F_new, lambda_new)] of one pass of [janbu_corrected] *)
Definition step (df : DataFrame) (st : fl * fl) : fl * fl :=
  let F := fst st in
  let lambda_ := snd st in
  let m := Scalar (Fin 1) + Scalar lambda_ * tan_phi df / Scalar F in
  let N := series Df.w df * cos_alpha df + get_normal_reinf df in
  let S := array Df.c df * array Df.dl df
           + (N - array Df.u df * array Df.dl df) * tan_phi df / Scalar F in
  let R := S / m in
  let T := series Df.w df * sin_alpha df - get_shear_reinf df in
  let F_new := (Np.sum R / Np.sum T)%fl in
  let lambda_new :=
    (Np.sum (R * sin_alpha df) / Np.sum (R * cos_alpha df))%fl in
  (F_new, lambda_new).

(** The test that ends both loops: both components within [tol] *)
Definition close (tol : fl) (old new : fl * fl) : bool :=
  Float.ltb (Float.abs (fst new - fst old)) tol
  && Float.ltb (Float.abs (snd new - snd old)) tol.

(** [psi] of [morgenstern_price] on the table *)
Definition psi (function : fl -> fl) (df : DataFrame) : value :=
  NDArray (map function (Np.linspace01 (List.length (Df.rows df)))).

(** The pair [(F, lam)] after [k] passes, from [(1.0, 0.0)] *)
Definition state (f : fl * fl -> fl * fl) (k : nat) : fl * fl :=
  Nat.iter k f (Fin 1, Fin 0).

(** The shape of both loops: pass after pass until the test holds; what is
    returned is the pair the last pass started from. *)
Fixpoint run (f : fl * fl -> fl * fl) (tol : fl) (n : nat) (st : fl * fl)
    : fl * fl * bool :=
  match n with
  | O => (fst st, snd st, false)
  | S n' => if close tol st (f st) then (fst st, snd st, true)
            else run f tol n' (f st)
  end.

End Janbu.

(** The part of [load_globals] that builds the ground surface: the tail of
    the body of the profile loop, for the blocks that pass the header and
    first-row tests, each given by the [coords] read from it; the call of
    [build_ground_surface]; the tension crack line. *)
Module LoadGlobals.
Import Shapely.

Definition append_profile_line (coords : list Point)
    (profile_lines : list (list Point)) : Py.result (list (list Point)) :=
  if (List.length coords =? 1)%nat then Py.Raise Py.ValueError
  else match coords with
       | [] => Py.Ok profile_lines
       | _ => Py.Ok (profile_lines ++ [coords])
       end.

Fixpoint profile_loop (blocks : list (list Point))
    (profile_lines : list (list Point)) : Py.result (list (list Point)) :=
  match blocks with
  | [] => Py.Ok profile_lines
  | coords :: rest =>
      match append_profile_line coords profile_lines with
      | Py.Raise e => Py.Raise e
      | Py.Ok profile_lines' => profile_loop rest profile_lines'
      end
  end.

(** [LineString([(x, y - tcrack_depth) for (x, y) in ground_surface.coords])] *)
Definition lowered (tcrack_depth : R) (ground_surface : LineString)
    : list Point :=
  map (fun p => (fst p, snd p - tcrack_depth)) (coords ground_surface).

Definition tcrack_surface (tcrack_depth : R) (ground_surface : LineString)
    : Py.result (option LineString) :=
  if Rltb 0 tcrack_depth
  then match Shapely.new (lowered tcrack_depth ground_surface) with
       | Py.Raise e => Py.Raise e
       | Py.Ok line => Py.Ok (Some line)
       end
  else Py.Ok None.

(** [profile_lines], [ground_surface] and [tcrack_surface] *)
Definition surfaces (blocks : list (list Point)) (tcrack_depth : R)
    : Py.result (list (list Point) * LineString * option LineString) :=
  match profile_loop blocks [] with
  | Py.Raise e => Py.Raise e
  | Py.Ok profile_lines =>
      match Fileio.build_ground_surface profile_lines with
      | Py.Raise e => Py.Raise e
      | Py.Ok ground_surface =>
          match tcrack_surface tcrack_depth ground_surface with
          | Py.Raise e => Py.Raise e
          | Py.Ok tcrack => Py.Ok (profile_lines, ground_surface, tcrack)
          end
      end
  end.

End LoadGlobals.

(** * Properties *)

(** ** Calls that leave the world alone *)

Section Frame.

Import Py.

(** A computation is read-only when it hands back the world it was given. *)
Definition read_only {A} (m : M A) : Prop := forall s, snd (m s) = s.

Lemma read_only_ret {A} (a : A) : read_only (ret a).
Proof. intros s; reflexivity. Qed.

Lemma read_only_raise {A} (e : exn) : read_only (@raise A e).
Proof. intros s; reflexivity. Qed.

Lemma read_only_lift {A} (r : result A) : read_only (lift r).
Proof. intros s; reflexivity. Qed.

Lemma read_only_getitem name : read_only (getitem name).
Proof. intros s; unfold getitem; now destruct (Df.column _ _). Qed.

Lemma read_only_get name d : read_only (get name d).
Proof. intros s; unfold get; now destruct (Df.column _ _). Qed.

Lemma read_only_len : read_only len.
Proof. intros s; reflexivity. Qed.

Lemma read_only_values v : read_only (values v).
Proof. destruct v; intros s; reflexivity. Qed.

Lemma read_only_bind {A B} (m : M A) (k : A -> M B) :
  read_only m -> (forall a, read_only (k a)) -> read_only (bind m k).
Proof.
  intros Hm Hk s. unfold bind.
  specialize (Hm s). destruct (m s) as [[a|e] s']; simpl in *; subst s'.
  - apply Hk.
  - reflexivity.
Qed.

Lemma read_only_repeat {A} (m : M A) :
  read_only m -> forall s, m (snd (m s)) = m s.
Proof. intros Hm s. now rewrite Hm. Qed.

End Frame.

Ltac frame_step :=
  lazymatch goal with
  | |- read_only (Py.bind _ _) => apply read_only_bind; [ | intro ]
  | |- read_only (Py.ret _) => apply read_only_ret
  | |- read_only (Py.raise _) => apply read_only_raise
  | |- read_only (Py.lift _) => apply read_only_lift
  | |- read_only (Py.getitem _) => apply read_only_getitem
  | |- read_only (Py.get _ _) => apply read_only_get
  | |- read_only Py.len => apply read_only_len
  | |- read_only (Py.values _) => apply read_only_values
  | |- read_only (let x := _ in _) => cbv zeta
  end.

Ltac frame := repeat frame_step.

Lemma oms_read_only : read_only Solve.oms.
Proof. unfold Solve.oms. frame. Qed.

Lemma bishop_read_only tol max_iter : read_only (Solve.bishop tol max_iter).
Proof.
  unfold Solve.bishop. frame.
  match goal with |- read_only (match ?x with _ => _ end) =>
    destruct x as [[F|] cv] end; frame.
Qed.

Lemma spencer_read_only tol max_iter : read_only (Solve.spencer tol max_iter).
Proof. unfold Solve.spencer. frame. Qed.

Lemma spencer_moment_read_only ms bounds tol max_iter :
  read_only (Solve.spencer_moment ms bounds tol max_iter).
Proof. unfold Solve.spencer_moment. frame. Qed.

Lemma janbu_simple_read_only tol max_iter :
  read_only (Solve.janbu_simple tol max_iter).
Proof. unfold Solve.janbu_simple. frame. Qed.

Lemma janbu_corrected_read_only tol max_iter :
  read_only (Solve.janbu_corrected tol max_iter).
Proof. unfold Solve.janbu_corrected. frame. Qed.

Lemma morgenstern_price_read_only f tol max_iter :
  read_only (Solve.morgenstern_price f tol max_iter).
Proof. unfold Solve.morgenstern_price. frame. Qed.

(** C9: no solver changes the table it is given or the module's global
    bindings, whether it returns or raises, and calling it again in the world
    it left gives the same outcome. *)
Theorem solvers_leave_world_unchanged :
  forall (s : Py.World) (tol : fl) (max_iter : nat) (function : fl -> fl)
         (minimize_scalar : (fl -> fl) -> fl * fl -> fl -> Py.result fl)
         (beta_bounds : fl * fl),
    let unchanged {A} (m : Py.M A) := snd (m s) = s /\ m (snd (m s)) = m s in
    unchanged Solve.oms
    /\ unchanged (Solve.bishop tol max_iter)
    /\ unchanged (Solve.spencer tol max_iter)
    /\ unchanged (Solve.spencer_moment minimize_scalar beta_bounds tol max_iter)
    /\ unchanged (Solve.janbu_simple tol max_iter)
    /\ unchanged (Solve.janbu_corrected tol max_iter)
    /\ unchanged (Solve.morgenstern_price function tol max_iter).
Proof.
  intros s tol max_iter function ms bounds unchanged.
  assert (H : forall A (m : Py.M A), read_only m -> unchanged A m).
  { intros A m Hm. split; [apply Hm | now apply read_only_repeat]. }
  split; [exact (H _ _ oms_read_only)|].
  split; [exact (H _ _ (bishop_read_only tol max_iter))|].
  split; [exact (H _ _ (spencer_read_only tol max_iter))|].
  split; [exact (H _ _ (spencer_moment_read_only ms bounds tol max_iter))|].
  split; [exact (H _ _ (janbu_simple_read_only tol max_iter))|].
  split; [exact (H _ _ (janbu_corrected_read_only tol max_iter))|].
  exact (H _ _ (morgenstern_price_read_only function tol max_iter)).
Qed.

(** ** What the solvers read *)

Lemma bishop_unfold tol max_iter s :
  let df := Py.table s in
  Solve.bishop tol max_iter s =
  (match Solve.bishop_loop (Table.cos_alpha df) (Table.sin_alpha df)
           (Table.tan_phi df) (Bishop.num df) (Bishop.denominator df)
           tol max_iter (Fin 1) None with
   | (Some F_calc, converge) => Py.Ok (F_calc, Bishop.N df, converge)
   | (None, _) => Py.Raise Py.UnboundLocalError
   end, s).
Proof.
  destruct s as [[rows hs hn] g]. cbv zeta. simpl Py.table.
  unfold Solve.bishop, Bishop.num, Bishop.denominator, Bishop.N,
    Table.get_shear_reinf, Table.get_normal_reinf.
  destruct hs, hn; cbn;
    match goal with |- context [Solve.bishop_loop ?a ?b ?c ?d ?e ?f ?g ?h ?i] =>
      destruct (Solve.bishop_loop a b c d e f g h i) as [[F|] cv] end;
    reflexivity.
Qed.

(** ** Bishop: the loop stops, and says how *)

Section BishopLoop.

Variables (cos_alpha sin_alpha tan_phi num : value) (denominator tol : fl).

Local Open Scope np_scope.

Let body (F_guess : fl) : fl :=
  (Np.sum (num / (cos_alpha + (sin_alpha * tan_phi) / Scalar F_guess))
   / denominator)%fl.

Let close (F0 : fl) (j : nat) : bool :=
  Float.ltb (Float.abs (Nat.iter j body F0 - Nat.iter (pred j) body F0)) tol.

Lemma bishop_loop_stops :
  forall n F0 prev, (1 <= n)%nat ->
  exists k, (1 <= k <= n)%nat
    /\ Solve.bishop_loop cos_alpha sin_alpha tan_phi num denominator tol
         n F0 prev = (Some (Nat.iter k body F0), close F0 k)
    /\ (forall j, (1 <= j < k)%nat -> close F0 j = false)
    /\ (close F0 k = false -> k = n).
Proof.
  induction n as [|n IH]; intros F0 prev Hn; [lia|].
  cbn [Solve.bishop_loop]. fold (body F0).
  destruct (Float.ltb (Float.abs (body F0 - F0)) tol) eqn:Hc.
  - exists 1%nat. unfold close; cbn [Nat.iter pred nat_rect]. rewrite Hc.
    repeat split; try lia; try discriminate.
  - destruct n as [|n].
    + exists 1%nat. unfold close; cbn [Nat.iter pred nat_rect Solve.bishop_loop].
      rewrite Hc. repeat split; lia.
    + destruct (IH (body F0) (Some (body F0))) as (k & Hk & Hrun & Hbefore & Hlast);
        [lia|].
      assert (Hshift : forall j, (1 <= j)%nat ->
                close F0 (S j) = close (body F0) j).
      { intros j Hj. unfold close. destruct j as [|j]; [lia|].
        cbn [pred]. now rewrite <- !Nat.iter_succ_r. }
      exists (S k). rewrite Hrun, Nat.iter_succ_r, Hshift by lia.
      repeat split; try lia.
      * intros j Hj. destruct j as [|[|j]]; [lia| |].
        -- unfold close; cbn [Nat.iter pred nat_rect]. exact Hc.
        -- rewrite Hshift by lia. apply Hbefore; lia.
      * intros H; apply Hlast in H; lia.
Qed.

End BishopLoop.

(** C6: with [max_iter >= 1] bishop returns, never raises, after some number
    [k <= max_iter] of passes; it returns the [F_calc] of pass [k] and the
    fixed [N]; the flag tells whether pass [k] met the tolerance, no earlier
    pass did, and a false flag means all [max_iter] passes were used. *)
Theorem bishop_terminates_with_flag :
  forall (s : Py.World) (tol : fl) (max_iter : nat),
    (1 <= max_iter)%nat ->
    let df := Py.table s in
    exists k converge,
      (1 <= k <= max_iter)%nat
      /\ Solve.bishop tol max_iter s
         = (Py.Ok (Bishop.iterate df k, Bishop.N df, converge), s)
      /\ converge = Bishop.within_tol df tol k
      /\ (forall j, (1 <= j < k)%nat -> Bishop.within_tol df tol j = false)
      /\ (converge = false -> k = max_iter).
Proof.
  intros s tol max_iter Hmax df.
  destruct (bishop_loop_stops (Table.cos_alpha df) (Table.sin_alpha df)
              (Table.tan_phi df) (Bishop.num df) (Bishop.denominator df) tol
              max_iter (Fin 1) None Hmax) as (k & Hk & Hrun & Hbefore & Hlast).
  exists k, (Bishop.within_tol df tol k).
  pose proof (bishop_unfold tol max_iter s) as Hu. cbv zeta in Hu. fold df in Hu.
  rewrite Hrun in Hu.
  repeat split; try lia; try assumption.
Qed.


Lemma bishop_terminates_with_flag_witness :
  exists k converge,
    (1 <= k <= 100)%nat
    /\ Solve.bishop (Fin (/ 1000000)) 100
         (Py.mkWorld (Df.mkDataFrame [one_slice] false false) [])
       = (Py.Ok (Bishop.iterate (Df.mkDataFrame [one_slice] false false) k,
                 Bishop.N (Df.mkDataFrame [one_slice] false false), converge),
          Py.mkWorld (Df.mkDataFrame [one_slice] false false) []).
Proof.
  destruct (bishop_terminates_with_flag
              (Py.mkWorld (Df.mkDataFrame [one_slice] false false) [])
              (Fin (/ 1000000)) 100 ltac:(lia)) as (k & cv & Hk & Hrun & _).
  exists k, cv. split; [exact Hk | exact Hrun].
Defined.

(** With [max_iter = 0] the loop body never runs and [F_calc] is unbound at
    the [return]. *)
Lemma bishop_without_a_pass tol s :
  Solve.bishop tol 0 s = (Py.Raise Py.UnboundLocalError, s).
Proof. now rewrite bishop_unfold. Qed.

(** ** OMS *)

Lemma zip_with_map {A} (f : fl -> fl -> fl) (g h : A -> fl) (l : list A) :
  Np.zip_with f (map g l) (map h l) = map (fun r => f (g r) (h r)) l.
Proof. induction l as [|a l IH]; cbn; [reflexivity | now rewrite IH]. Qed.

(** With both reinforcement columns in the table, [oms] returns the closed
    form and the per-slice normal forces. *)
Lemma oms_closed_form (rows : list Df.Row) (g : list (string * value)) :
  let s := Py.mkWorld (Df.mkDataFrame rows true true) g in
  Solve.oms s = (Py.Ok (Oms.FS rows, Series (map Oms.N_slice rows)), s).
Proof.
  cbv zeta. unfold Solve.oms, Py.bind. cbn.
  rewrite !map_map, !zip_with_map.
  unfold Oms.FS, Float.neb, Float.inf, Np.pd_sum, Np.np_sum, Np.dropna.
  unfold Oms.resisting, Oms.driving, Oms.N_slice. cbv zeta beta.
  match goal with |- context [Float.eqb ?a ?b] =>
    destruct (Float.eqb a b) end; reflexivity.
Qed.

(** Without a reinforcement column [df.get(..., 0)] is the number 0, which
    has no [.values]. *)
Lemma oms_needs_reinforcement_columns (s : Py.World) :
  Df.has_shear_reinf (Py.table s) = false
  \/ Df.has_normal_reinf (Py.table s) = false ->
  Solve.oms s = (Py.Raise Py.AttributeError, s).
Proof.
  destruct s as [[rows hs hn] g]. cbn [Py.table Df.has_shear_reinf
    Df.has_normal_reinf].
  intros [->| ->]; [|destruct hs]; reflexivity.
Qed.

(** C1, where the code departs from it: on the one-slice table of the
    specification, which has no reinforcement columns, [oms] raises
    AttributeError instead of returning [(FS, N)]. *)
Theorem oms_raises_without_reinforcement_columns :
  Solve.oms (Py.mkWorld (Df.mkDataFrame [one_slice] false false) [])
  = (Py.Raise Py.AttributeError,
     Py.mkWorld (Df.mkDataFrame [one_slice] false false) []).
Proof. reflexivity. Qed.

(** ** Spencer *)

Lemma spencer_loop_normal_reinf (W sr nr nr' c dl u sa ca tp pr : value)
    (tol : fl) (n : nat) :
  forall F beta,
    Solve.spencer_loop W sr nr c dl u sa ca tp pr tol n F beta
    = Solve.spencer_loop W sr nr' c dl u sa ca tp pr tol n F beta.
Proof.
  induction n as [|n IH]; intros F beta; [reflexivity|].
  cbn [Solve.spencer_loop]. cbv zeta.
  match goal with |- (if ?b then _ else _) = _ => destruct b end;
    [reflexivity | apply IH].
Qed.

(** C7: the outcome of [spencer] does not depend on the [normal_reinf]
    column: replacing it by any values, or dropping it, changes neither FS
    nor beta. *)
Theorem spencer_ignores_normal_reinf :
  forall (df : DataFrame) (g : list (string * value)) (present : bool)
         (f : Df.Row -> fl) (tol : fl) (max_iter : nat),
    fst (Solve.spencer tol max_iter
           (Py.mkWorld (Table.set_normal_reinf present f df) g))
    = fst (Solve.spencer tol max_iter (Py.mkWorld df g)).
Proof.
  intros [rows hs hn] g present f tol max_iter.
  unfold Solve.spencer, Py.bind, Table.set_normal_reinf.
  destruct hs, hn, present; cbn; rewrite ?map_map; cbn;
    f_equal; apply spencer_loop_normal_reinf.
Qed.

(** ** Ground surface: sorting and the table of highest points *)

Section Comparisons.

Import Shapely.

Lemma Rltb_true a b : a < b -> Rltb a b = true.
Proof. unfold Rltb; destruct (Rlt_dec a b); [reflexivity | contradiction]. Qed.

Lemma Rltb_false a b : b <= a -> Rltb a b = false.
Proof. unfold Rltb; destruct (Rlt_dec a b); [lra | reflexivity]. Qed.

Lemma Rleb_true a b : a <= b -> Rleb a b = true.
Proof. unfold Rleb; destruct (Rle_dec a b); [reflexivity | contradiction]. Qed.

Lemma Rleb_false a b : b < a -> Rleb a b = false.
Proof. unfold Rleb; destruct (Rle_dec a b); [lra | reflexivity]. Qed.

Lemma Reqb_true a b : a = b -> Reqb a b = true.
Proof. unfold Reqb; destruct (Req_EM_T a b); [reflexivity | contradiction]. Qed.

Lemma Reqb_false a b : a <> b -> Reqb a b = false.
Proof. unfold Reqb; destruct (Req_EM_T a b); [contradiction | reflexivity]. Qed.

Lemma Rltb_spec a b : Rltb a b = true <-> a < b.
Proof. unfold Rltb; destruct (Rlt_dec a b); split; auto; discriminate. Qed.

Lemma Rleb_spec a b : Rleb a b = true <-> a <= b.
Proof. unfold Rleb; destruct (Rle_dec a b); split; auto; discriminate. Qed.

Lemma Reqb_spec a b : Reqb a b = true <-> a = b.
Proof. unfold Reqb; destruct (Req_EM_T a b); split; auto; discriminate. Qed.

Lemma tuple_leb_spec a1 a2 b1 b2 :
  Utils.tuple_leb a1 a2 b1 b2 = true <-> a1 < b1 \/ (a1 = b1 /\ a2 <= b2).
Proof.
  unfold Utils.tuple_leb.
  rewrite orb_true_iff, andb_true_iff, Rltb_spec, Reqb_spec, Rleb_spec.
  reflexivity.
Qed.

End Comparisons.

Section Sorting.

Import Shapely Utils.

Variable leb : Point -> Point -> bool.
Hypothesis leb_total : forall p q, leb p q = true \/ leb q p = true.
Hypothesis leb_trans :
  forall p q r, leb p q = true -> leb q r = true -> leb p r = true.

Let le (p q : Point) : Prop := leb p q = true.

Lemma insert_by_perm p l : Permutation (insert_by leb p l) (p :: l).
Proof.
  induction l as [|q l IH]; cbn; [reflexivity|].
  destruct (leb p q); [reflexivity|].
  rewrite IH. apply perm_swap.
Qed.

Lemma sorted_by_perm l : Permutation (sorted_by leb l) l.
Proof.
  induction l as [|p l IH]; cbn; [reflexivity|].
  rewrite insert_by_perm. now constructor.
Qed.

Lemma insert_by_sorted p l :
  StronglySorted le l -> StronglySorted le (insert_by leb p l).
Proof.
  induction 1 as [|q l Hl IH Hq]; cbn.
  - repeat constructor.
  - destruct (leb p q) eqn:Hpq.
    + constructor; [now constructor|].
      constructor; [exact Hpq|].
      eapply Forall_impl; [|exact Hq]. intros r Hr. eapply leb_trans; eauto.
    + constructor; [exact IH|].
      eapply Permutation_Forall; [symmetry; apply insert_by_perm|].
      constructor; [|exact Hq].
      destruct (leb_total p q) as [H|H]; [congruence | exact H].
Qed.

Lemma sorted_by_sorted l : StronglySorted le (sorted_by leb l).
Proof.
  induction l as [|p l IH]; cbn; [constructor | now apply insert_by_sorted].
Qed.

End Sorting.

Lemma item_leb_total p q :
  Utils.item_leb p q = true \/ Utils.item_leb q p = true.
Proof.
  unfold Utils.item_leb. rewrite !tuple_leb_spec.
  lra.
Qed.

Lemma item_leb_trans p q r :
  Utils.item_leb p q = true -> Utils.item_leb q r = true ->
  Utils.item_leb p r = true.
Proof. unfold Utils.item_leb. rewrite !tuple_leb_spec. lra. Qed.

Lemma key_leb_total p q :
  Utils.key_leb p q = true \/ Utils.key_leb q p = true.
Proof.
  unfold Utils.key_leb. rewrite !tuple_leb_spec.
  lra.
Qed.

Section TopCandidates.

Import Shapely Utils.

Lemma dict_get_In d x v : dict_get d x = Some v -> In (x, v) d.
Proof.
  induction d as [|[k v0] d IH]; cbn; [discriminate|].
  destruct (Reqb k x) eqn:E.
  - apply Reqb_spec in E. intros [= ->]. left; now subst.
  - auto.
Qed.

Lemma dict_get_None d x : dict_get d x = None -> ~ In x (map fst d).
Proof.
  induction d as [|[k v0] d IH]; cbn; [tauto|].
  destruct (Reqb k x) eqn:E; [discriminate|].
  intros H [Hk|Hin]; [|now apply IH].
  subst. rewrite Reqb_true in E by reflexivity. discriminate.
Qed.

Lemma dict_get_unique d x v v' :
  NoDup (map fst d) -> dict_get d x = Some v -> In (x, v') d -> v' = v.
Proof.
  induction d as [|[k v0] d IH]; cbn; [tauto|].
  intros Hnd. inversion Hnd as [|? ? Hk Hnd']; subst.
  destruct (Reqb k x) eqn:E.
  - apply Reqb_spec in E; subst. intros [= ->] [[= ->]|Hin]; [reflexivity|].
    exfalso; apply Hk. now apply (in_map fst) in Hin.
  - intros Hg [[= -> ->]|Hin]; [|now apply IH].
    rewrite Reqb_true in E by reflexivity. discriminate.
Qed.

Lemma dict_set_keys d x y :
  map fst (dict_set d x y)
  = match dict_get d x with
    | Some _ => map fst d
    | None => map fst d ++ [x]
    end.
Proof.
  induction d as [|[k v0] d IH]; cbn; [reflexivity|].
  destruct (Reqb k x) eqn:E; cbn; [reflexivity|].
  rewrite IH. now destruct (dict_get d x).
Qed.

Lemma dict_set_NoDup d x y :
  NoDup (map fst d) -> NoDup (map fst (dict_set d x y)).
Proof.
  intros Hnd. rewrite dict_set_keys.
  destruct (dict_get d x) eqn:E; [exact Hnd|].
  apply NoDup_app; [exact Hnd | repeat constructor; intros [] | ].
  intros k Hk [<-|[]]. now apply dict_get_None in E.
Qed.

Lemma dict_set_In d x y k v :
  NoDup (map fst d) -> In (k, v) (dict_set d x y) ->
  (k = x /\ v = y) \/ (k <> x /\ In (k, v) d).
Proof.
  induction d as [|[k0 v0] d IH]; cbn.
  - intros _ [[= <- <-]|[]]. now left.
  - intros Hnd. inversion Hnd as [|? ? Hk Hnd']; subst.
    destruct (Reqb k0 x) eqn:E.
    + apply Reqb_spec in E; subst.
      intros [[= <- <-]|Hin]; [now left|]. right. split; [|now right].
      intros ->. apply Hk. now apply (in_map fst) in Hin.
    + intros [[= <- <-]|Hin].
      * right. split; [|now left]. intros ->.
        rewrite Reqb_true in E by reflexivity. discriminate.
      * destruct (IH Hnd' Hin) as [H|[H1 H2]]; [now left | right; auto].
Qed.

Lemma dict_set_get d x y : dict_get (dict_set d x y) x <> None.
Proof.
  induction d as [|[k0 v0] d IH]; cbn.
  - rewrite Reqb_true by reflexivity. discriminate.
  - destruct (Reqb k0 x) eqn:E; cbn; rewrite E; [discriminate | exact IH].
Qed.

Lemma dict_set_get_other d x y k :
  dict_get d k <> None -> dict_get (dict_set d x y) k <> None.
Proof.
  induction d as [|[k0 v0] d IH]; cbn; [tauto|].
  destruct (Reqb k0 k) eqn:Ek, (Reqb k0 x) eqn:Ex; cbn; rewrite ?Ek;
    try discriminate; auto.
Qed.

(** What the table holds after the points [seen] have gone through it: one
    entry per x, each the highest of the points seen at that x. *)
Definition highest_of (seen : list Point) (d : dict) : Prop :=
  NoDup (map fst d)
  /\ (forall k v, In (k, v) d ->
        In (k, v) seen /\ forall v', In (k, v') seen -> v' <= v)
  /\ (forall k v, In (k, v) seen -> dict_get d k <> None).

Lemma highest_of_step seen d x y :
  highest_of seen d ->
  highest_of (seen ++ [(x, y)])
    (match dict_get d x with
     | None => dict_set d x y
     | Some y0 => if Rltb y0 y then dict_set d x y else d
     end).
Proof.
  intros (Hnd & Hmax & Hall).
  assert (Hnew : (dict_get d x = None \/
                  exists y0, dict_get d x = Some y0 /\ y0 < y) ->
                 highest_of (seen ++ [(x, y)]) (dict_set d x y)).
  { intros Hcase. split; [now apply dict_set_NoDup|]. split.
    - intros k v Hin. apply dict_set_In in Hin; [|exact Hnd].
      destruct Hin as [[-> ->]|[Hk Hin]].
      + split; [apply in_or_app; right; now left|].
        intros v' Hv'. apply in_app_or in Hv'.
        destruct Hv' as [Hv'|[[= ->]|[]]]; [|lra].
        destruct Hcase as [Hnone|(y0 & Hsome & Hlt)].
        * now apply Hall in Hv'.
        * apply dict_get_In in Hsome. apply Hmax in Hsome.
          destruct Hsome as [_ Hle]. specialize (Hle _ Hv'). lra.
      + destruct (Hmax _ _ Hin) as [Hs Hle]. split; [apply in_or_app; now left|].
        intros v' Hv'. apply in_app_or in Hv'.
        destruct Hv' as [Hv'|[[= -> ->]|[]]]; [now apply Hle | contradiction].
    - intros k v Hin. apply in_app_or in Hin.
      destruct Hin as [Hin|[[= <- <-]|[]]].
      + apply dict_set_get_other. eapply Hall; eauto.
      + apply dict_set_get. }
  destruct (dict_get d x) as [y0|] eqn:Hget; [|apply Hnew; now left].
  destruct (Rltb y0 y) eqn:Hlt.
  - apply Hnew. right. exists y0. split; [reflexivity | now apply Rltb_spec].
  - assert (y <= y0).
    { destruct (Rle_or_lt y y0) as [H|H]; [exact H|].
      apply Rltb_true in H. congruence. }
    split; [exact Hnd|]. split.
    + intros k v Hin. destruct (Hmax _ _ Hin) as [Hs Hle].
      split; [apply in_or_app; now left|].
      intros v' Hv'. apply in_app_or in Hv'.
      destruct Hv' as [Hv'|[[= -> ->]|[]]]; [now apply Hle|].
      rewrite (dict_get_unique _ _ _ _ Hnd Hget Hin). exact H.
    + intros k v Hin. apply in_app_or in Hin.
      destruct Hin as [Hin|[[= <- <-]|[]]]; [eapply Hall; eauto | congruence].
Qed.

Lemma top_candidates_loop_highest pts :
  forall seen d, highest_of seen d ->
                 highest_of (seen ++ pts) (top_candidates_loop pts d).
Proof.
  induction pts as [|[x y] pts IH]; intros seen d H; cbn.
  - now rewrite app_nil_r.
  - pose proof (highest_of_step seen d x y H) as Hs.
    destruct (dict_get d x) as [y0|]; [destruct (Rltb y0 y)|];
      apply IH in Hs; rewrite <- app_assoc in Hs; exact Hs.
Qed.

Lemma all_points_In lines p :
  In p (all_points lines) <-> exists line, In line lines /\ In p line.
Proof.
  unfold all_points, set_of.
  assert (Hperm := sorted_by_perm key_leb
                     (nodup point_eq_dec (List.concat lines))).
  split.
  - intros H. apply (Permutation_in _ Hperm) in H.
    apply nodup_In, in_concat in H. destruct H as (line & H1 & H2). eauto.
  - intros (line & H1 & H2).
    apply (Permutation_in _ (Permutation_sym Hperm)).
    apply nodup_In, in_concat. eauto.
Qed.

Lemma top_candidates_highest lines :
  highest_of (all_points lines) (top_candidates lines).
Proof.
  apply (top_candidates_loop_highest (all_points lines) [] []).
  split; [constructor|]. split; [intros ? ? []|intros ? ? []].
Qed.

End TopCandidates.

(** ** Ground surface: the filter of step 3 *)

Section SurfaceLoop.

Import Shapely Utils.

(** Whether the inner loop ends with [keep] still true *)
Definition keeps (lines : list (list Point)) (p : Point) : bool :=
  match keep_loop (fst p) (snd p) lines with
  | Py.Ok true => true
  | _ => false
  end.

Lemma surface_loop_filter lines :
  forall cands acc pts,
    surface_loop cands lines acc = Py.Ok pts ->
    pts = acc ++ filter (keeps lines) cands.
Proof.
  induction cands as [|[x y] cands IH]; intros acc pts; cbn.
  - intros [= <-]. now rewrite app_nil_r.
  - unfold keeps at 1; cbn [fst snd].
    destruct (keep_loop x y lines) as [[|]|e]; [| |discriminate];
      intros H; apply IH in H; subst pts; [|reflexivity].
    now rewrite <- app_assoc.
Qed.

Lemma top_surface_points_filter lines pts :
  top_surface_points lines = Py.Ok pts ->
  pts = filter (keeps lines) (sorted_by item_leb (top_candidates lines)).
Proof. intros H. now apply surface_loop_filter in H. Qed.

Lemma build_ground_surface_coords lines ls :
  build_ground_surface lines = Py.Ok ls ->
  exists pts, top_surface_points lines = Py.Ok pts
              /\ coords ls = if (2 <=? List.length pts)%nat then pts else [].
Proof.
  unfold build_ground_surface.
  destruct (top_surface_points lines) as [pts|e]; [|discriminate].
  intros H. exists pts. split; [reflexivity|].
  destruct (2 <=? List.length pts)%nat eqn:E.
  - destruct pts as [|p [|q pts]]; try discriminate. now injection H as <-.
  - now injection H as <-.
Qed.

Lemma build_ground_surface_In lines ls p :
  build_ground_surface lines = Py.Ok ls -> In p (coords ls) ->
  In p (top_candidates lines) /\ keeps lines p = true.
Proof.
  intros H Hin. apply build_ground_surface_coords in H.
  destruct H as (pts & Hpts & Hc). rewrite Hc in Hin.
  destruct (2 <=? List.length pts)%nat; [|destruct Hin].
  apply top_surface_points_filter in Hpts. subst pts.
  apply filter_In in Hin. destruct Hin as [Hin Hk]. split; [|exact Hk].
  eapply Permutation_in; [apply sorted_by_perm | exact Hin].
Qed.

Lemma StronglySorted_filter {A} (R : A -> A -> Prop) (f : A -> bool) l :
  StronglySorted R l -> StronglySorted R (filter f l).
Proof.
  induction 1 as [|a l Hl IH Ha]; cbn; [constructor|].
  destruct (f a); [|exact IH]. constructor; [exact IH|].
  apply Forall_forall. intros b Hb. apply filter_In in Hb.
  rewrite Forall_forall in Ha. now apply Ha.
Qed.

Lemma sorted_items_strict (l : list Point) :
  StronglySorted (fun p q => item_leb p q = true) l ->
  NoDup (map fst l) ->
  StronglySorted (fun p q => fst p < fst q) l.
Proof.
  induction 1 as [|p l Hl IH Hp]; cbn; intros Hnd; [constructor|].
  inversion Hnd as [|? ? Hnotin Hnd']; subst.
  constructor; [now apply IH|].
  rewrite Forall_forall in *. intros q Hq.
  specialize (Hp q Hq). unfold item_leb in Hp. apply tuple_leb_spec in Hp.
  destruct Hp as [Hlt|[Heq _]]; [exact Hlt|].
  exfalso. apply Hnotin. rewrite Heq. now apply in_map.
Qed.

Lemma candidates_strictly_increasing lines :
  StronglySorted (fun p q => fst p < fst q)
    (sorted_by item_leb (top_candidates lines)).
Proof.
  apply sorted_items_strict.
  - apply sorted_by_sorted; [apply item_leb_total | apply item_leb_trans].
  - destruct (top_candidates_highest lines) as (Hnd & _).
    eapply Permutation_NoDup; [|exact Hnd].
    apply Permutation_map, Permutation_sym, sorted_by_perm.
Qed.

End SurfaceLoop.

(** C8: the points of a returned ground surface line come in strictly
    increasing x, so no x occurs twice. *)
Theorem ground_surface_strictly_increasing :
  forall (profile_lines : list (list Shapely.Point)) (ls : Shapely.LineString),
    Utils.build_ground_surface profile_lines = Py.Ok ls ->
    StronglySorted (fun p q => fst p < fst q) (Shapely.coords ls)
    /\ NoDup (map fst (Shapely.coords ls)).
Proof.
  intros lines ls H.
  assert (Hs : StronglySorted (fun p q : Shapely.Point => fst p < fst q)
                 (Shapely.coords ls)).
  { apply build_ground_surface_coords in H. destruct H as (pts & Hpts & ->).
    destruct (2 <=? List.length pts)%nat; [|constructor].
    apply top_surface_points_filter in Hpts. subst pts.
    apply StronglySorted_filter, candidates_strictly_increasing. }
  split; [exact Hs|].
  induction Hs as [|p l Hl IH Hp]; cbn; constructor; [|exact IH].
  intros Hin. apply in_map_iff in Hin. destruct Hin as (q & Hq & Hin).
  rewrite Forall_forall in Hp. specialize (Hp q Hin). lra.
Qed.

(** C10: every point of a returned ground surface line is a vertex of an
    input profile line, and no vertex of any profile line at the same x lies
    higher. *)
Theorem ground_surface_points_are_highest_vertices :
  forall (profile_lines : list (list Shapely.Point)) (ls : Shapely.LineString)
         (x y : R),
    Utils.build_ground_surface profile_lines = Py.Ok ls ->
    In (x, y) (Shapely.coords ls) ->
    (exists line, In line profile_lines /\ In (x, y) line)
    /\ (forall line y', In line profile_lines -> In (x, y') line -> y' <= y).
Proof.
  intros lines ls x y H Hin.
  destruct (build_ground_surface_In lines ls (x, y) H Hin) as [Hc _].
  destruct (top_candidates_highest lines) as (_ & Hmax & _).
  destruct (Hmax x y Hc) as [Hseen Hle]. split.
  - now apply all_points_In.
  - intros line y' Hline Hy'. apply Hle. apply all_points_In. eauto.
Qed.

(** C5, where the code departs from it: a single profile line of one point
    makes [build_ground_surface] raise, from the [LineString] it builds of
    that line in step 3, instead of returning the empty line. *)
Theorem ground_surface_raises_on_one_point_line :
  Utils.build_ground_surface [[(1, 2)]] = Py.Raise Py.GEOSException.
Proof. reflexivity. Qed.

(** ** Ground surface: lines of two points *)

Section TwoPointLines.

Import Shapely.

Lemma distance_nonneg p q : 0 <= distance p q.
Proof. apply sqrt_pos. Qed.

Lemma projection_factor_range a b p :
  0 <= projection_factor a b p <= 1.
Proof.
  unfold projection_factor. cbv zeta.
  destruct (Reqb _ 0); [lra|].
  destruct (Rleb _ 0) eqn:E0; [lra|].
  destruct (Rleb 1 _) eqn:E1; [lra|].
  destruct (Rle_or_lt
              (((fst p - fst a) * (fst b - fst a)
                + (snd p - snd a) * (snd b - snd a))
               / ((fst b - fst a) * (fst b - fst a)
                  + (snd b - snd a) * (snd b - snd a))) 0) as [H|H];
    [apply Rleb_true in H; congruence|].
  destruct (Rle_or_lt 1
              (((fst p - fst a) * (fst b - fst a)
                + (snd p - snd a) * (snd b - snd a))
               / ((fst b - fst a) * (fst b - fst a)
                  + (snd b - snd a) * (snd b - snd a)))) as [H'|H'];
    [apply Rleb_true in H'; congruence|].
  lra.
Qed.

Lemma length_two a b : length (mkLineString [a; b]) = distance a b.
Proof. unfold length; cbn. lra. Qed.

Lemma project_two a b p :
  project (mkLineString [a; b]) p = projection_factor a b p * distance a b.
Proof.
  unfold project; cbn [coords project_from andb].
  pose proof (projection_factor_range a b p).
  pose proof (distance_nonneg a b).
  rewrite Rltb_true by nra. lra.
Qed.

Lemma interpolate_two a b d :
  0 <= d < distance a b ->
  interpolate (mkLineString [a; b]) d = point_along a b (d / distance a b).
Proof.
  intros [H0 H1]. unfold interpolate; cbn [coords interpolate_from].
  now rewrite Rltb_false, Rltb_true.
Qed.

End TwoPointLines.

Section Discard.

Import Shapely Utils Dominance.

Lemma keep_loop_dominated x y lines :
  forall keep, keep_loop x y lines = Py.Ok keep ->
               (keep = false <-> dominated_by_some_line lines x y).
Proof.
  unfold dominated_by_some_line.
  induction lines as [|line lines IH]; intros keep; cbn [keep_loop].
  - intros [= <-]. split; [discriminate | intros (l & [] & _)].
  - destruct (Shapely.new line) as [ls|e] eqn:Hnew; [|discriminate].
    assert (Hskip : ~ dominates line x y ->
              keep_loop x y lines = Py.Ok keep ->
              keep = false <->
              exists l, In l (line :: lines) /\ dominates l x y).
    { intros Hnd Hk. rewrite (IH _ Hk). split.
      - intros (l & Hl & Hd). exists l. split; [now right | exact Hd].
      - intros (l & [<-|Hl] & Hd); [contradiction | eauto]. }
    destruct (Reqb (length ls) 0) eqn:E0.
    { apply Hskip. intros (ls' & Hn & H0 & _).
      rewrite Hnew in Hn. injection Hn as <-. now apply Reqb_spec in E0. }
    destruct (Reqb (project ls (x, 0)) 0) eqn:E1.
    { apply Hskip. intros (ls' & Hn & _ & H1 & _).
      rewrite Hnew in Hn. injection Hn as <-. now apply Reqb_spec in E1. }
    destruct (Reqb (project ls (x, 0)) (length ls)) eqn:E2.
    { apply Hskip. intros (ls' & Hn & _ & _ & H2 & _).
      rewrite Hnew in Hn. injection Hn as <-. now apply Reqb_spec in E2. }
    cbn [orb].
    destruct (Rltb (y + / 1000000) (snd (interpolate ls (project ls (x, 0)))))
      eqn:E3.
    + intros [= <-]. split; [intros _|reflexivity].
      exists line. split; [now left|]. exists ls.
      repeat split; try assumption.
      * intros H; apply Reqb_true in H; congruence.
      * intros H; apply Reqb_true in H; congruence.
      * intros H; apply Reqb_true in H; congruence.
      * now apply Rltb_spec.
    + apply Hskip. intros (ls' & Hn & _ & _ & _ & H3).
      rewrite Hnew in Hn. injection Hn as <-.
      apply Rltb_true in H3. congruence.
Qed.

Lemma surface_loop_keep_ok lines :
  forall cands acc pts p,
    surface_loop cands lines acc = Py.Ok pts -> In p cands ->
    exists keep, keep_loop (fst p) (snd p) lines = Py.Ok keep.
Proof.
  induction cands as [|[x y] cands IH]; intros acc pts p; cbn; [tauto|].
  destruct (keep_loop x y lines) as [keep|e] eqn:Hk; [|discriminate].
  intros H [<-|Hin]; [now exists keep | eapply IH; eauto].
Qed.

End Discard.

(** X14: What step 3 does: a candidate of step 2 is left out of the surface
    points exactly when some profile line hides it -- any line, the one the
    candidate was taken from included. *)
Theorem candidate_discarded_iff_dominated :
  forall (profile_lines : list (list Shapely.Point))
         (pts : list Shapely.Point) (x y : R),
    Utils.top_surface_points profile_lines = Py.Ok pts ->
    In (x, y) (Utils.top_candidates profile_lines) ->
    (~ In (x, y) pts <-> Dominance.dominated_by_some_line profile_lines x y).
Proof.
  intros lines pts x y Hrun Hc.
  assert (Hs : In (x, y) (Utils.sorted_by Utils.item_leb
                            (Utils.top_candidates lines))).
  { eapply Permutation_in; [apply Permutation_sym, sorted_by_perm | exact Hc]. }
  destruct (surface_loop_keep_ok _ _ _ _ (x, y) Hrun Hs) as [keep Hk].
  cbn [fst snd] in Hk.
  rewrite <- (keep_loop_dominated _ _ _ _ Hk).
  apply top_surface_points_filter in Hrun. subst pts.
  rewrite filter_In. unfold keeps; cbn [fst snd]. rewrite Hk.
  destruct keep; split; intros H; try reflexivity; try discriminate.
  - exfalso; apply H; auto.
  - intros [_ H']; discriminate.
Qed.

Ltac rdec1 :=
  match goal with
  | |- context [Shapely.Rltb ?a ?b] =>
      first [rewrite (Rltb_true a b) by lra | rewrite (Rltb_false a b) by lra]
  | |- context [Shapely.Rleb ?a ?b] =>
      first [rewrite (Rleb_true a b) by lra | rewrite (Rleb_false a b) by lra]
  | |- context [Shapely.Reqb ?a ?b] =>
      first [rewrite (Reqb_true a b) by lra | rewrite (Reqb_false a b) by lra]
  end.

Ltac rdec := repeat rdec1; cbn [andb orb negb].

Ltac points_nodup :=
  repeat constructor; cbn; intros H;
  repeat (destruct H as [H|H]); try inversion H; lra.

Ltac candidates_eval :=
  unfold Utils.top_candidates, Utils.all_points, Utils.set_of;
  rewrite nodup_fixed_point by points_nodup;
  repeat (progress (unfold Utils.key_leb, Utils.item_leb, Utils.tuple_leb;
                    cbn [List.concat app Utils.sorted_by fold_right
                         Utils.insert_by fst snd Utils.top_candidates_loop
                         Utils.dict_get Utils.dict_set];
                    rdec)).

Section SlopeBelowDatum.

Import Shapely Utils.

(** One profile line falling from the datum: [(0, -10)] to [(10, 0)] read
    right to left. *)
Definition slope : list Point := [(0, -10); (10, 0)].

Lemma slope_length : 0 < distance (0, -10) (10, 0).
Proof. unfold distance; cbn [fst snd]. apply sqrt_lt_R0. lra. Qed.

Lemma slope_candidates : top_candidates [slope] = [(0, -10); (10, 0)].
Proof. unfold slope. candidates_eval. reflexivity. Qed.

Lemma slope_discards_its_foot : keep_loop 0 (-10) [slope] = Py.Ok false.
Proof.
  pose proof slope_length as HL.
  unfold slope. cbn [keep_loop Shapely.new].
  rewrite length_two, project_two.
  replace (projection_factor (0, -10) (10, 0) (0, 0)) with (1 / 2)
    by (unfold projection_factor; cbn [fst snd]; rdec; lra).
  rdec. rewrite interpolate_two by lra.
  replace (1 / 2 * distance (0, -10) (10, 0) / distance (0, -10) (10, 0))
    with (1 / 2) by (field; lra).
  unfold point_along; cbn [fst snd]. rdec. reflexivity.
Qed.

Lemma slope_keeps_its_head : keep_loop 10 0 [slope] = Py.Ok true.
Proof.
  pose proof slope_length as HL.
  unfold slope. cbn [keep_loop Shapely.new].
  rewrite length_two, project_two.
  replace (projection_factor (0, -10) (10, 0) (10, 0)) with 1
    by (unfold projection_factor; cbn [fst snd]; rdec; lra).
  rdec. reflexivity.
Qed.

Lemma slope_surface_points : top_surface_points [slope] = Py.Ok [(10, 0)].
Proof.
  unfold top_surface_points. rewrite slope_candidates.
  unfold item_leb, tuple_leb;
    cbn [sorted_by fold_right insert_by fst snd]; rdec.
  cbn [surface_loop].
  rewrite slope_discards_its_foot, slope_keeps_its_head. reflexivity.
Qed.

End SlopeBelowDatum.

(** C4, where the code departs from it: the foot [(0, -10)] of the only
    profile line is a candidate and is discarded, by the line it lies on,
    although no other line hides it (there is none). *)
Lemma foot_of_slope_discarded_by_own_line :
  In (0, -10) (Utils.top_candidates [slope])
  /\ Utils.top_surface_points [slope] = Py.Ok [(10, 0)]
  /\ ~ In (0, -10) [(10, 0)]
  /\ ~ Dominance.dominated_by_other_line [slope] 0 (-10).
Proof.
  split; [rewrite slope_candidates; now left|].
  split; [exact slope_surface_points|].
  split.
  - intros [H|[]]. inversion H. lra.
  - intros (line & [<-|[]] & Hnot & _). apply Hnot. now left.
Qed.

Lemma candidate_discarded_iff_dominated_witness :
  ~ In (0, -10) [(10, 0)] <-> Dominance.dominated_by_some_line [slope] 0 (-10).
Proof.
  apply (candidate_discarded_iff_dominated [slope] [(10, 0)] 0 (-10)).
  - exact slope_surface_points.
  - rewrite slope_candidates. now left.
Defined.

Section CrossingLines.

Import Shapely Utils.

(** The two crossing profile lines of the specification *)
Definition line_A : list Point := [(0, 0); (10, 10)].
Definition line_B : list Point := [(0, 5); (10, 5)].

Lemma line_A_length : 0 < distance (0, 0) (10, 10).
Proof. unfold distance; cbn [fst snd]. apply sqrt_lt_R0. lra. Qed.

Lemma line_B_length : 0 < distance (0, 5) (10, 5).
Proof. unfold distance; cbn [fst snd]. apply sqrt_lt_R0. lra. Qed.

Lemma crossing_candidates :
  top_candidates [line_A; line_B] = [(0, 5); (10, 10)].
Proof. unfold line_A, line_B. candidates_eval. reflexivity. Qed.

Lemma crossing_keeps_left : keep_loop 0 5 [line_A; line_B] = Py.Ok true.
Proof.
  pose proof line_A_length as HA. pose proof line_B_length as HB.
  unfold line_A, line_B. cbn [keep_loop Shapely.new].
  rewrite !length_two, !project_two.
  replace (projection_factor (0, 0) (10, 10) (0, 0)) with 0
    by (unfold projection_factor; cbn [fst snd]; rdec; lra).
  replace (projection_factor (0, 5) (10, 5) (0, 0)) with 0
    by (unfold projection_factor; cbn [fst snd]; rdec; lra).
  rdec. reflexivity.
Qed.

Lemma crossing_keeps_right : keep_loop 10 10 [line_A; line_B] = Py.Ok true.
Proof.
  pose proof line_A_length as HA. pose proof line_B_length as HB.
  unfold line_A, line_B. cbn [keep_loop Shapely.new].
  rewrite !length_two, !project_two.
  replace (projection_factor (0, 0) (10, 10) (10, 0)) with (1 / 2)
    by (unfold projection_factor; cbn [fst snd]; rdec; lra).
  replace (projection_factor (0, 5) (10, 5) (10, 0)) with 1
    by (unfold projection_factor; cbn [fst snd]; rdec; lra).
  rdec. rewrite interpolate_two by lra.
  replace (1 / 2 * distance (0, 0) (10, 10) / distance (0, 0) (10, 10))
    with (1 / 2) by (field; lra).
  unfold point_along; cbn [fst snd]. rdec. reflexivity.
Qed.

Lemma crossing_ground_surface :
  build_ground_surface [line_A; line_B]
  = Py.Ok (mkLineString [(0, 5); (10, 10)]).
Proof.
  unfold build_ground_surface, top_surface_points.
  rewrite crossing_candidates.
  unfold item_leb, tuple_leb;
    cbn [sorted_by fold_right insert_by fst snd]; rdec.
  cbn [surface_loop].
  rewrite crossing_keeps_left, crossing_keeps_right. reflexivity.
Qed.

End CrossingLines.

Lemma ground_surface_strictly_increasing_witness :
  StronglySorted (fun p q : Shapely.Point => fst p < fst q) [(0, 5); (10, 10)]
  /\ NoDup (map fst [(0, 5); (10, 10)]).
Proof.
  exact (ground_surface_strictly_increasing [line_A; line_B]
           (Shapely.mkLineString [(0, 5); (10, 10)]) crossing_ground_surface).
Defined.

Lemma ground_surface_points_are_highest_vertices_witness :
  (exists line, In line [line_A; line_B] /\ In (10, 10) line)
  /\ (forall line y', In line [line_A; line_B] -> In (10, y') line -> y' <= 10).
Proof.
  apply (ground_surface_points_are_highest_vertices [line_A; line_B]
           (Shapely.mkLineString [(0, 5); (10, 10)]) 10 10).
  - exact crossing_ground_surface.
  - right; now left.
Defined.

(** ** Morgenstern-Price with the constant shape *)

Lemma janbu_corrected_unfold tol max_iter s :
  let df := Py.table s in
  Solve.janbu_corrected tol max_iter s =
  (Py.Ok (Solve.janbu_corrected_loop
            (Table.series Df.w df) (Table.get_shear_reinf df)
            (Table.get_normal_reinf df) (Table.array Df.c df)
            (Table.array Df.dl df) (Table.array Df.u df)
            (Table.sin_alpha df) (Table.cos_alpha df) (Table.tan_phi df)
            tol max_iter (Fin 1) (Fin 0)), s).
Proof.
  destruct s as [[rows hs hn] g]. cbv zeta. simpl Py.table.
  unfold Solve.janbu_corrected, Table.get_shear_reinf, Table.get_normal_reinf.
  destruct hs, hn; reflexivity.
Qed.

Lemma morgenstern_price_unfold function tol max_iter s :
  let df := Py.table s in
  Solve.morgenstern_price function tol max_iter s =
  (Py.Ok (Solve.morgenstern_price_loop
            (Table.series Df.w df) (Table.get_shear_reinf df)
            (Table.get_normal_reinf df) (Table.array Df.c df)
            (Table.array Df.dl df) (Table.array Df.u df)
            (Table.sin_alpha df) (Table.cos_alpha df) (Table.tan_phi df)
            (NDArray (map function
                        (Np.linspace01 (List.length (Df.rows df)))))
            tol max_iter (Fin 1) (Fin 0)), s).
Proof.
  destruct s as [[rows hs hn] g]. cbv zeta. simpl Py.table.
  unfold Solve.morgenstern_price, Table.get_shear_reinf,
    Table.get_normal_reinf.
  destruct hs, hn; reflexivity.
Qed.

Lemma mul_one_r (x : fl) : (x * Fin 1)%fl = x.
Proof.
  destruct x as [r| | |]; cbn; unfold Float.sgn.
  - f_equal; lra.
  - destruct (Rlt_dec 0 1); [reflexivity | lra].
  - destruct (Rlt_dec 0 1); [reflexivity | lra].
  - reflexivity.
Qed.

Lemma zip_with_length_le (f : fl -> fl -> fl) (a b : list fl) :
  (List.length (Np.zip_with f a b) <= List.length b)%nat.
Proof.
  revert b; induction a as [|x a IH]; intros [|y b]; cbn; try lia.
  specialize (IH b). lia.
Qed.

Section ConstantShape.

Variable ones : list fl.
Hypothesis all_ones : Forall (fun x => x = Fin 1) ones.

Lemma zip_mul_ones (l : list fl) :
  (List.length l <= List.length ones)%nat ->
  Np.zip_with Float.mul l ones = l.
Proof.
  revert l. induction all_ones as [|o ones' Ho Hs IH]; intros [|x l]; cbn;
    intros Hl; try reflexivity; try lia.
  subst o. rewrite mul_one_r, IH by (assumption || lia). reflexivity.
Qed.

Lemma zip_scalar_ones (lam : fl) (l : list fl) :
  (List.length l <= List.length ones)%nat ->
  Np.zip_with Float.mul (map (Float.mul lam) ones) l = map (Float.mul lam) l.
Proof.
  revert l. induction all_ones as [|o ones' Ho Hs IH]; intros [|x l]; cbn;
    intros Hl; try reflexivity; try lia.
  subst o. rewrite mul_one_r, IH by (assumption || lia). reflexivity.
Qed.

Variables (W shear_reinf normal_reinf c dl u sin_alpha cos_alpha : value).
Variable tan_phi : list fl.
Hypothesis shape : (List.length tan_phi <= List.length ones)%nat.
Variable tol : fl.

Local Open Scope np_scope.

Lemma m_constant_shape (F lam : fl) :
  Scalar (Fin 1) + Scalar lam * NDArray ones * Series tan_phi / Scalar F
  = Scalar (Fin 1) + Scalar lam * Series tan_phi / Scalar F.
Proof. cbn. now rewrite zip_scalar_ones. Qed.

Lemma R_constant_shape (S0 : value) (F lam : fl) :
  let R := S0 / (Scalar (Fin 1) + Scalar lam * Series tan_phi / Scalar F) in
  R * NDArray ones = R.
Proof.
  cbn. destruct S0 as [x|xs|xs]; cbn; f_equal; apply zip_mul_ones;
    rewrite ?length_map; try lia;
    (etransitivity; [apply zip_with_length_le|]); now rewrite !length_map.
Qed.

Lemma morgenstern_price_loop_constant_shape :
  forall n F lam,
    LambdaGuard.unused W shear_reinf normal_reinf c dl u sin_alpha cos_alpha
      (Series tan_phi) (NDArray ones) tol n F lam ->
    Solve.morgenstern_price_loop W shear_reinf normal_reinf c dl u
      sin_alpha cos_alpha (Series tan_phi) (NDArray ones) tol n F lam
    = Solve.janbu_corrected_loop W shear_reinf normal_reinf c dl u
        sin_alpha cos_alpha (Series tan_phi) tol n F lam.
Proof.
  induction n as [|n IH]; intros F lam; [reflexivity|].
  cbn [LambdaGuard.unused Solve.morgenstern_price_loop
       Solve.janbu_corrected_loop]. cbv zeta.
  rewrite m_constant_shape.
  rewrite (R_constant_shape (c * dl + (W * cos_alpha + normal_reinf - u * dl)
                               * Series tan_phi / Scalar F) F lam).
  intros [Hden Hrest]. rewrite Hden.
  match goal with |- (if ?b then _ else _) = _ => destruct b end;
    [reflexivity | now apply IH].
Qed.

End ConstantShape.

Lemma linspace01_length n : List.length (Np.linspace01 n) = n.
Proof.
  destruct n as [|[|n]]; try reflexivity.
  unfold Np.linspace01. now rewrite length_map, length_seq.
Qed.

(** C2, as the code has it: when the run of [morgenstern_price] with the
    default constant shape never finds the denominator of its lambda update
    equal to zero, it returns exactly what [janbu_corrected] returns for the
    same tolerance and iteration cap: FS, lambda and the flag. *)
Theorem morgenstern_price_default_is_janbu_corrected :
  forall (s : Py.World) (tol : fl) (max_iter : nat),
    LambdaGuard.unused_on (Py.table s) tol max_iter ->
    Solve.morgenstern_price Solve.default_function tol max_iter s
    = Solve.janbu_corrected tol max_iter s.
Proof.
  intros s tol max_iter H.
  rewrite morgenstern_price_unfold, janbu_corrected_unfold. cbv zeta.
  f_equal. f_equal.
  unfold Table.tan_phi, Table.series in *. cbn [Np.tan Np.radians Np.ufunc] in *.
  apply morgenstern_price_loop_constant_shape.
  - apply Forall_forall. intros x Hx. apply in_map_iff in Hx.
    now destruct Hx as (y & <- & _).
  - rewrite !length_map, linspace01_length. lia.
  - exact H.
Qed.

(** ** Bishop on frictionless tables *)

Section Undrained.

Import Finite.

Lemma pd_sum_finite {A} (g : A -> R) (l : list A) :
  Np.pd_sum (map (fun r => Fin (g r)) l) = Fin (Rsum (map g l)).
Proof.
  unfold Np.pd_sum, Np.np_sum, Np.dropna, Rsum.
  induction l as [|a l IH]; cbn; [reflexivity|]. now rewrite IH.
Qed.

Lemma pd_sum_nan {A} (l : list A) :
  Np.pd_sum (map (fun _ => NaN) l) = Fin 0.
Proof.
  unfold Np.pd_sum, Np.np_sum, Np.dropna.
  induction l as [|a l IH]; cbn; auto.
Qed.

Lemma map_Fin_ext {A} (f : A -> fl) (g : A -> R) (l : list A) :
  (forall r, In r l -> f r = Fin (g r)) ->
  map f l = map (fun r => Fin (g r)) l.
Proof. intros H. now apply map_ext_in. Qed.

Lemma div_finite (a b : R) : b <> 0 -> (Fin a / Fin b)%fl = Fin (a / b).
Proof.
  intros Hb. cbn. destruct (Req_EM_T b 0); [contradiction | reflexivity].
Qed.

Lemma div_zero_zero (a : R) : a = 0 -> (Fin a / Fin 0)%fl = NaN.
Proof.
  intros ->. cbn. destruct (Req_EM_T 0 0); [|contradiction].
  unfold Float.sgn. destruct (Rlt_dec 0 0); [lra | reflexivity].
Qed.

Variables (l : list slice) (hs hn : bool).
Hypothesis Hphi : frictionless l.
Hypothesis Hcos : forall r, In r l -> cos_deg (alpha r) <> 0.
Hypothesis Hdrive : Rsum (map (driving hs) l) <> 0.

Let df := table l hs hn.

Lemma undrained_denominator :
  Bishop.denominator df = Fin (Rsum (map (driving hs) l)).
Proof.
  unfold Bishop.denominator, Table.sin_alpha, Table.get_shear_reinf,
    Table.series, df, table. cbn [Df.rows Df.has_shear_reinf].
  destruct hs; cbn; rewrite !map_map; rewrite ?zip_with_map, ?map_map;
    rewrite <- pd_sum_finite; f_equal; apply map_ext; intros r; cbn;
    unfold driving, sin_deg; f_equal; lra.
Qed.


Lemma undrained_tan_phi :
  Table.tan_phi df = Series (map (fun _ => Fin 0) l).
Proof.
  unfold Table.tan_phi, Table.series, df, table. cbn. rewrite !map_map.
  f_equal. apply map_ext_in. intros r Hr. cbn [row Df.phi]. now apply Hphi.
Qed.

Lemma undrained_N :
  Bishop.N df = Series (map (fun r => Fin (normal_force hn r)) l).
Proof.
  unfold Bishop.N, Table.cos_alpha, Table.get_normal_reinf, Table.series,
    df, table. cbn [Df.rows Df.has_normal_reinf].
  destruct hn; cbn; rewrite !map_map; rewrite ?zip_with_map, ?map_map;
    f_equal; apply map_ext; intros r; cbn;
    unfold normal_force, cos_deg; f_equal; ring.
Qed.

Lemma undrained_num :
  Bishop.num df = Series (map (fun r => Fin (c r * dl r)) l).
Proof.
  unfold Bishop.num. rewrite undrained_N, undrained_tan_phi.
  unfold Table.series, df, table. cbn. rewrite !map_map, !zip_with_map.
  f_equal. apply map_ext. intros r. cbn. f_equal. lra.
Qed.

Lemma undrained_cos_alpha :
  Table.cos_alpha df = Series (map (fun r => Fin (cos_deg (alpha r))) l).
Proof.
  unfold Table.cos_alpha, Table.series, df, table. cbn. now rewrite !map_map.
Qed.

Lemma undrained_sin_alpha :
  Table.sin_alpha df = Series (map (fun r => Fin (sin_deg (alpha r))) l).
Proof.
  unfold Table.sin_alpha, Table.series, df, table. cbn. now rewrite !map_map.
Qed.

(** With a guess that is a number other than zero, the denominator of each
    term is [cos(alpha)] and [F_calc] does not depend on the guess. *)
Lemma undrained_F_calc (x : R) :
  x <> 0 -> Bishop.F_calc df (Fin x) = Fin (bishop_undrained l hs).
Proof.
  intros Hx. unfold Bishop.F_calc. cbv zeta.
  rewrite undrained_num, undrained_cos_alpha, undrained_sin_alpha,
    undrained_tan_phi, undrained_denominator.
  cbn. rewrite !zip_with_map, !map_map, !zip_with_map.
  rewrite (map_Fin_ext _ (fun r => c r * dl r / cos_deg (alpha r))).
  - rewrite pd_sum_finite. now apply div_finite.
  - intros r Hr. cbn [Float.mul].
    rewrite (div_finite _ x Hx). cbn [Float.add].
    replace (cos_deg (alpha r) + sin_deg (alpha r) * 0 / x)
      with (cos_deg (alpha r)) by (unfold Rdiv; ring).
    apply div_finite. now apply Hcos.
Qed.

(** With the guess 0 every term is NaN, the sum skips them all, and
    [F_calc] is 0 again. *)
Lemma undrained_F_calc_0 (x : R) :
  x = 0 -> Bishop.F_calc df (Fin x) = Fin 0.
Proof.
  intros ->. unfold Bishop.F_calc. cbv zeta.
  rewrite undrained_num, undrained_cos_alpha, undrained_sin_alpha,
    undrained_tan_phi, undrained_denominator.
  cbn. rewrite !zip_with_map, !map_map, !zip_with_map.
  rewrite (map_ext _ (fun _ => NaN)).
  - rewrite pd_sum_nan, div_finite by exact Hdrive. f_equal.
    unfold Rdiv; ring.
  - intros r. cbn [Float.mul].
    rewrite div_zero_zero by ring. reflexivity.
Qed.


Lemma bishop_loop_step tol n F prev :
  Solve.bishop_loop (Table.cos_alpha df) (Table.sin_alpha df)
    (Table.tan_phi df) (Bishop.num df) (Bishop.denominator df) tol (S n) F prev
  = if Float.ltb (Float.abs (Bishop.F_calc df F - F)) tol
    then (Some (Bishop.F_calc df F), true)
    else Solve.bishop_loop (Table.cos_alpha df) (Table.sin_alpha df)
           (Table.tan_phi df) (Bishop.num df) (Bishop.denominator df) tol
           n (Bishop.F_calc df F) (Some (Bishop.F_calc df F)).
Proof. reflexivity. Qed.

Lemma undrained_bishop_loop tol n :
  Float.ltb (Fin 0) tol = true ->
  Solve.bishop_loop (Table.cos_alpha df) (Table.sin_alpha df)
    (Table.tan_phi df) (Bishop.num df) (Bishop.denominator df) tol
    (S (S n)) (Fin 1) None
  = (Some (Fin (bishop_undrained l hs)), true).
Proof.
  intros Htol. rewrite bishop_loop_step, undrained_F_calc by lra.
  destruct (Float.ltb (Float.abs _) tol); [reflexivity|].
  rewrite bishop_loop_step.
  assert (E : Bishop.F_calc df (Fin (bishop_undrained l hs))
              = Fin (bishop_undrained l hs)).
  { destruct (Req_EM_T (bishop_undrained l hs) 0) as [E0|E0].
    - rewrite undrained_F_calc_0 by exact E0. now rewrite E0.
    - now apply undrained_F_calc. }
  rewrite E. cbn [Float.sub Float.opp Float.add Float.abs].
  replace (Rabs (bishop_undrained l hs + - bishop_undrained l hs)) with 0
    by (rewrite Rplus_opp_r, Rabs_R0; reflexivity).
  now rewrite Htol.
Qed.

(** What [bishop] returns on a frictionless table *)
Lemma undrained_bishop tol n g :
  Float.ltb (Fin 0) tol = true ->
  Solve.bishop tol (S (S n)) (Py.mkWorld df g)
  = (Py.Ok (Fin (bishop_undrained l hs), Bishop.N df, true), Py.mkWorld df g).
Proof.
  intros Htol. rewrite bishop_unfold. cbv zeta. cbn [Py.table].
  now rewrite undrained_bishop_loop.
Qed.

End Undrained.

Section UndrainedOms.

Import Finite.

Variable l : list slice.
Hypothesis Hphi : frictionless l.
Hypothesis Hdrive : Rsum (map (driving true) l) <> 0.

(** What [oms] returns on a frictionless table with both reinforcement
    columns *)
Lemma undrained_oms g :
  let s := Py.mkWorld (table l true true) g in
  Solve.oms s
  = (Py.Ok (Fin (oms_undrained l), Series (map Oms.N_slice (map row l))), s).
Proof.
  cbv zeta. unfold table. rewrite oms_closed_form. cbv zeta.
  f_equal. f_equal. f_equal. unfold Oms.FS. rewrite !map_map.
  rewrite (map_Fin_ext (fun r => Oms.driving (row r)) (driving true)).
  2:{ intros r _. cbn. unfold driving, sin_deg. f_equal. }
  rewrite (map_Fin_ext (fun r => Oms.resisting (row r))
             (fun r => c r * dl r)).
  2:{ intros r Hr. unfold Oms.resisting, Oms.N_slice. cbn [row Df.phi].
      rewrite (Hphi r Hr). cbn. f_equal. ring. }
  rewrite !pd_sum_finite. cbn [Float.eqb].
  destruct (Req_EM_T _ 0) as [E|_]; [contradiction|].
  now apply div_finite.
Qed.

End UndrainedOms.


Section SteepSlice.

Import Finite.

(** One slice on a base at 60 degrees, cohesive only *)
Definition steep : list slice := [mkSlice 60 100 5 0 0 2 0 0 0 0].

Lemma tan_radians_0 : Float.tan (Float.radians (Fin 0)) = Fin 0.
Proof.
  cbn. replace (0 * (PI / 180)) with 0 by lra. rewrite sin_0, cos_0.
  destruct (Req_EM_T 1 0); [lra|]. f_equal. lra.
Qed.

Lemma cos_deg_60 : cos_deg 60 = 1 / 2.
Proof.
  unfold cos_deg. replace (60 * (PI / 180)) with (PI / 3) by lra.
  apply cos_PI3.
Qed.

Lemma sin_deg_60 : 1 / 2 < sin_deg 60 <= 1.
Proof.
  unfold sin_deg. split; [|apply SIN_bound].
  replace (60 * (PI / 180)) with (PI / 3) by lra. rewrite sin_PI3.
  assert (1 < sqrt 3); [|lra].
  rewrite <- sqrt_1 at 1. apply sqrt_lt_1; lra.
Qed.

Lemma steep_frictionless : frictionless steep.
Proof. intros r [<-|[]]. exact tan_radians_0. Qed.

Lemma steep_cos : forall r, In r steep -> cos_deg (alpha r) <> 0.
Proof. intros r [<-|[]]. cbn. rewrite cos_deg_60. lra. Qed.

Lemma steep_driving : Rsum (map (driving true) steep) <> 0.
Proof. cbn. unfold driving; cbn. pose proof sin_deg_60. lra. Qed.

Lemma steep_bishop : bishop_undrained steep true = 20 / (100 * sin_deg 60).
Proof.
  unfold bishop_undrained, driving; cbn. rewrite cos_deg_60.
  pose proof sin_deg_60. field. lra.
Qed.

Lemma steep_oms : oms_undrained steep = 10 / (100 * sin_deg 60).
Proof.
  unfold oms_undrained, driving; cbn. pose proof sin_deg_60. field. lra.
Qed.

Lemma steep_gap :
  / 10 <= bishop_undrained steep true - oms_undrained steep
  /\ bishop_undrained steep true <= 4 / 10.
Proof.
  rewrite steep_bishop, steep_oms. pose proof sin_deg_60 as [H1 H2].
  assert (Hinv : / 100 <= / (100 * sin_deg 60) <= / 50).
  { split; apply Rinv_le_contravar; lra. }
  unfold Rdiv. lra.
Qed.

End SteepSlice.



(** ** Morgenstern-Price against Janbu corrected, on two tables *)

Ltac fl_case d :=
  let H := fresh in
  destruct d as [H|H]; [try solve [exfalso; lra] | try solve [exfalso; lra]];
  clear H.

Ltac fl_dec1 :=
  match goal with
  | |- context [Rabs ?a] =>
      first [rewrite (Rabs_pos_eq a) by lra | rewrite (Rabs_left1 a) by lra]
  | |- context [Req_EM_T ?a ?b] => fl_case (Req_EM_T a b)
  | |- context [Rlt_dec ?a ?b] => fl_case (Rlt_dec a b)
  | |- context [Rle_dec ?a ?b] => fl_case (Rle_dec a b)
  end.

Ltac fl_red :=
  unfold Float.sgn, Float.neb, Float.sub;
  cbn [Np.binop Np.ufunc Np.sum Np.pd_sum Np.np_sum Np.dropna Np.zip_with
       map filter fold_right negb andb orb
       Float.add Float.mul Float.div Float.opp Float.abs Float.ltb
       Float.eqb Float.is_nan Float.signed_inf CompOpp].

Ltac fl_eval := fl_red; repeat (fl_dec1; fl_red).

Section FluidSlice.

Import Finite.

(** One slice with neither cohesion nor friction, on a base at 30 degrees *)
Definition fluid : list slice := [mkSlice 30 100 0 0 0 1 0 0 0 0].

(** One cohesive slice on a level base *)
Definition level : list slice := [mkSlice 0 100 5 0 0 2 0 0 0 0].

Lemma sin_deg_30 : sin_deg 30 = 1 / 2.
Proof.
  unfold sin_deg. replace (30 * (PI / 180)) with (PI / 6) by lra.
  apply sin_PI6.
Qed.

Lemma sin_deg_0 : sin_deg 0 = 0.
Proof. unfold sin_deg. replace (0 * (PI / 180)) with 0 by lra. apply sin_0. Qed.

Lemma cos_deg_0 : cos_deg 0 = 1.
Proof. unfold cos_deg. replace (0 * (PI / 180)) with 0 by lra. apply cos_0. Qed.

Lemma fluid_columns :
  let df := table fluid false false in
  Table.sin_alpha df = Series [Fin (1 / 2)]
  /\ Table.cos_alpha df = Series [Fin (cos_deg 30)]
  /\ Table.tan_phi df = Series [Fin 0].
Proof.
  cbv zeta. unfold Table.sin_alpha, Table.cos_alpha, Table.tan_phi,
    Table.series, table, fluid.
  cbn [Df.rows map row alpha phi Df.alpha Df.phi Np.sin Np.cos Np.tan
       Np.radians Np.ufunc].
  rewrite tan_radians_0. cbn [Float.sin Float.cos Float.radians Float.mul].
  fold (sin_deg 30) (cos_deg 30). now rewrite sin_deg_30.
Qed.

Lemma level_columns :
  let df := table level false false in
  Table.sin_alpha df = Series [Fin 0]
  /\ Table.cos_alpha df = Series [Fin 1]
  /\ Table.tan_phi df = Series [Fin 0].
Proof.
  cbv zeta. unfold Table.sin_alpha, Table.cos_alpha, Table.tan_phi,
    Table.series, table, level.
  cbn [Df.rows map row alpha phi Df.alpha Df.phi Np.sin Np.cos Np.tan
       Np.radians Np.ufunc].
  rewrite tan_radians_0. cbn [Float.sin Float.cos Float.radians Float.mul].
  fold (sin_deg 0) (cos_deg 0). now rewrite sin_deg_0, cos_deg_0.
Qed.

Variable C : R.

(** Once lambda is NaN, [janbu_corrected] never meets its tolerance again. *)
Lemma janbu_corrected_loop_stuck : forall n x, x = 0 ->
  Solve.janbu_corrected_loop (Series [Fin 100]) (Scalar (Fin 0))
    (Scalar (Fin 0)) (NDArray [Fin 0]) (NDArray [Fin 1]) (NDArray [Fin 0])
    (Series [Fin (1 / 2)]) (Series [Fin C]) (Series [Fin 0])
    (Fin (/ 1000000)) n (Fin x) NaN
  = (Fin x, NaN, false).
Proof.
  induction n as [|n IH]; intros x Hx; [reflexivity|].
  cbn [Solve.janbu_corrected_loop]. cbv zeta.
  fl_eval. rewrite IH by lra. f_equal. f_equal. f_equal. lra.
Qed.

Lemma janbu_corrected_loop_fluid n :
  Solve.janbu_corrected_loop (Series [Fin 100]) (Scalar (Fin 0))
    (Scalar (Fin 0)) (NDArray [Fin 0]) (NDArray [Fin 1]) (NDArray [Fin 0])
    (Series [Fin (1 / 2)]) (Series [Fin C]) (Series [Fin 0])
    (Fin (/ 1000000)) (S n) (Fin 1) (Fin 0)
  = (Fin 0, NaN, false).
Proof.
  cbn [Solve.janbu_corrected_loop]. cbv zeta.
  fl_eval. rewrite janbu_corrected_loop_stuck by lra.
  f_equal. f_equal. f_equal. lra.
Qed.

Lemma morgenstern_price_loop_fluid n :
  Solve.morgenstern_price_loop (Series [Fin 100]) (Scalar (Fin 0))
    (Scalar (Fin 0)) (NDArray [Fin 0]) (NDArray [Fin 1]) (NDArray [Fin 0])
    (Series [Fin (1 / 2)]) (Series [Fin C]) (Series [Fin 0])
    (NDArray [Fin 1]) (Fin (/ 1000000)) (S (S n)) (Fin 1) (Fin 0)
  = (Fin 0, Fin 0, true).
Proof.
  cbn [Solve.morgenstern_price_loop]. cbv zeta.
  fl_eval. f_equal. f_equal. f_equal. lra.
Qed.

End FluidSlice.

Section LevelSlice.

(** On the level slice FS is infinite and the loop never converges; the
    denominator of lambda stays 10. *)
Lemma level_guard_unused_from_inf : forall n x, x = 0 ->
  LambdaGuard.unused (Series [Fin 100]) (Scalar (Fin 0)) (Scalar (Fin 0))
    (NDArray [Fin 5]) (NDArray [Fin 2]) (NDArray [Fin 0])
    (Series [Fin 0]) (Series [Fin 1]) (Series [Fin 0]) (NDArray [Fin 1])
    (Fin (/ 1000000)) n PInf (Fin x).
Proof.
  induction n as [|n IH]; intros x Hx; [exact I|].
  cbn [LambdaGuard.unused]. cbv zeta.
  fl_eval. split; [reflexivity|]. apply IH. lra.
Qed.

Lemma level_guard_unused n :
  LambdaGuard.unused (Series [Fin 100]) (Scalar (Fin 0)) (Scalar (Fin 0))
    (NDArray [Fin 5]) (NDArray [Fin 2]) (NDArray [Fin 0])
    (Series [Fin 0]) (Series [Fin 1]) (Series [Fin 0]) (NDArray [Fin 1])
    (Fin (/ 1000000)) n (Fin 1) (Fin 0).
Proof.
  destruct n as [|n]; [exact I|].
  cbn [LambdaGuard.unused]. cbv zeta.
  fl_eval. split; [reflexivity|]. apply level_guard_unused_from_inf. lra.
Qed.

Lemma level_guard_unused_on :
  LambdaGuard.unused_on (Finite.table level false false) (Fin (/ 1000000)) 100.
Proof.
  unfold LambdaGuard.unused_on.
  destruct level_columns as (-> & -> & ->).
  exact (level_guard_unused 100).
Qed.

End LevelSlice.

(** C2 as stated fails here: on the fluid slice, with the default tolerance
    and iteration cap, [janbu_corrected] divides 0 by 0 and ends with lambda
    NaN and no convergence, while [morgenstern_price] takes its guard and
    converges with lambda 0. *)
Lemma morgenstern_price_is_not_janbu_on_fluid_slice :
  let tol := Fin (/ 1000000) in
  let s := Py.mkWorld (Finite.table fluid false false) [] in
  Solve.janbu_corrected tol 100 s = (Py.Ok (Fin 0, NaN, false), s)
  /\ Solve.morgenstern_price Solve.default_function tol 100 s
     = (Py.Ok (Fin 0, Fin 0, true), s)
  /\ Float.ltb (Float.abs (Fin 0 - NaN)) tol = false.
Proof.
  cbv zeta.
  rewrite janbu_corrected_unfold, morgenstern_price_unfold. cbv zeta.
  cbn [Py.table]. destruct fluid_columns as (-> & -> & ->).
  split; [|split; [|reflexivity]]; f_equal; f_equal.
  - exact (janbu_corrected_loop_fluid (Finite.cos_deg 30) 99).
  - exact (morgenstern_price_loop_fluid (Finite.cos_deg 30) 98).
Qed.

Lemma morgenstern_price_default_is_janbu_corrected_witness :
  Solve.morgenstern_price Solve.default_function (Fin (/ 1000000)) 100
    (Py.mkWorld (Finite.table level false false) [])
  = Solve.janbu_corrected (Fin (/ 1000000)) 100
      (Py.mkWorld (Finite.table level false false) []).
Proof.
  apply morgenstern_price_default_is_janbu_corrected.
  exact level_guard_unused_on.
Defined.

(** ** More on what the solvers raise and return *)

(** X1: [oms] returns exactly on the tables that hold both reinforcement
    columns; on every other table it raises AttributeError. *)
Theorem oms_returns_iff_reinforcement_columns :
  forall (rows : list Df.Row) (hs hn : bool) (g : list (string * value)),
    let s := Py.mkWorld (Df.mkDataFrame rows hs hn) g in
    Solve.oms s
    = (if hs && hn
       then Py.Ok (Oms.FS rows, Series (map Oms.N_slice rows))
       else Py.Raise Py.AttributeError, s).
Proof.
  intros rows hs hn g s. subst s. destruct hs, hn; cbn [andb].
  - apply oms_closed_form.
  - apply oms_needs_reinforcement_columns. now right.
  - apply oms_needs_reinforcement_columns. now left.
  - apply oms_needs_reinforcement_columns. now left.
Qed.

Lemma bishop_returns tol n s :
  exists FS converge,
    Solve.bishop tol (S n) s = (Py.Ok (FS, Bishop.N (Py.table s), converge), s).
Proof.
  destruct (bishop_loop_stops (Table.cos_alpha (Py.table s))
              (Table.sin_alpha (Py.table s)) (Table.tan_phi (Py.table s))
              (Bishop.num (Py.table s)) (Bishop.denominator (Py.table s))
              tol (S n) (Fin 1) None ltac:(lia)) as (k & _ & Hrun & _).
  pose proof (bishop_unfold tol (S n) s) as Hu. cbv zeta in Hu.
  rewrite Hrun in Hu. eauto.
Qed.

(** X2: [bishop] raises exactly when it is given no pass to make. *)
Theorem bishop_raises_iff_no_pass :
  forall (s : Py.World) (tol : fl) (max_iter : nat),
    (max_iter = 0%nat /\ Solve.bishop tol max_iter s
                         = (Py.Raise Py.UnboundLocalError, s))
    \/ ((0 < max_iter)%nat /\ exists FS converge,
          Solve.bishop tol max_iter s
          = (Py.Ok (FS, Bishop.N (Py.table s), converge), s)).
Proof.
  intros s tol [|n].
  - left. split; [reflexivity | apply bishop_without_a_pass].
  - right. split; [lia | apply bishop_returns].
Qed.

(** X3: The normal forces [bishop] returns are those of [oms]: the same array,
    whatever the tolerance and the number of passes. *)
Theorem bishop_returns_the_normal_forces_of_oms :
  forall (rows : list Df.Row) (g : list (string * value)) (tol : fl)
         (n : nat),
    let s := Py.mkWorld (Df.mkDataFrame rows true true) g in
    exists FS_oms FS_bishop converge,
      Solve.oms s = (Py.Ok (FS_oms, Series (map Oms.N_slice rows)), s)
      /\ Solve.bishop tol (S n) s
         = (Py.Ok (FS_bishop, Series (map Oms.N_slice rows), converge), s).
Proof.
  intros rows g tol n s. subst s.
  destruct (bishop_returns tol n
              (Py.mkWorld (Df.mkDataFrame rows true true) g))
    as (FS & cv & H).
  exists (Oms.FS rows), FS, cv. split; [apply oms_closed_form|].
  rewrite H. do 3 f_equal.
  unfold Bishop.N, Table.cos_alpha, Table.get_normal_reinf, Table.series.
  cbn. repeat rewrite ?map_map, ?zip_with_map.
  reflexivity.
Qed.

(** ** What the solvers read, continued *)

Lemma spencer_unfold tol max_iter s :
  let df := Py.table s in
  Solve.spencer tol max_iter s =
  (Py.Ok (Solve.spencer_loop
            (Table.array Df.w df) (Table.get_shear_reinf df)
            (Table.get_normal_reinf df) (Table.array Df.c df)
            (Table.array Df.dl df) (Table.array Df.u df)
            (Table.sin_alpha df) (Table.cos_alpha df) (Table.tan_phi df)
            (Np.radians (Table.series Df.phi df))
            tol max_iter (Fin 1) (Fin 0)), s).
Proof.
  destruct s as [[rows hs hn] g]. cbv zeta. simpl Py.table.
  unfold Solve.spencer, Table.get_shear_reinf, Table.get_normal_reinf.
  destruct hs, hn; reflexivity.
Qed.

Lemma janbu_simple_unfold tol max_iter s :
  let df := Py.table s in
  Solve.janbu_simple tol max_iter s =
  (Py.Ok (Solve.janbu_simple_loop
            (Table.series Df.w df) (Table.get_shear_reinf df)
            (Table.get_normal_reinf df) (Table.array Df.c df)
            (Table.array Df.dl df) (Table.array Df.u df)
            (Table.sin_alpha df) (Table.cos_alpha df) (Table.tan_phi df)
            tol max_iter (Fin 1)), s).
Proof.
  destruct s as [[rows hs hn] g]. cbv zeta. simpl Py.table.
  unfold Solve.janbu_simple, Table.get_shear_reinf, Table.get_normal_reinf.
  destruct hs, hn; reflexivity.
Qed.

(** ** The centroid columns *)

Ltac same_columns :=
  repeat match goal with
         | |- context [map ?f (map ?g ?l)] => rewrite (map_map g f l)
         end;
  cbn [Df.alpha Df.w Df.c Df.phi Df.u Df.dl Df.x_c Df.y_cb
       Df.shear_reinf Df.normal_reinf].

(** X4: The six solvers other than [spencer_moment] do not read the centroid
    columns: their outcome is the same whatever [x_c] and [y_cb] hold. *)
Theorem solvers_ignore_centroid_columns :
  forall (df : DataFrame) (g : list (string * value))
         (fx fy : Df.Row -> fl) (tol : fl) (max_iter : nat)
         (function : fl -> fl),
    let s := Py.mkWorld df g in
    let s' := Py.mkWorld (Replace.set_centroids fx fy df) g in
    fst (Solve.oms s') = fst (Solve.oms s)
    /\ fst (Solve.bishop tol max_iter s') = fst (Solve.bishop tol max_iter s)
    /\ fst (Solve.spencer tol max_iter s') = fst (Solve.spencer tol max_iter s)
    /\ fst (Solve.janbu_simple tol max_iter s')
       = fst (Solve.janbu_simple tol max_iter s)
    /\ fst (Solve.janbu_corrected tol max_iter s')
       = fst (Solve.janbu_corrected tol max_iter s)
    /\ fst (Solve.morgenstern_price function tol max_iter s')
       = fst (Solve.morgenstern_price function tol max_iter s).
Proof.
  intros [rows hs hn] g fx fy tol max_iter function s s'. subst s s'.
  unfold Replace.set_centroids.
  cbn [Df.rows Df.has_shear_reinf Df.has_normal_reinf].
  repeat apply conj.
  - unfold Solve.oms, Py.bind. destruct hs, hn; cbn; same_columns; reflexivity.
  - rewrite !bishop_unfold. cbv zeta. cbn [Py.table fst].
    unfold Bishop.num, Bishop.denominator, Bishop.N, Table.cos_alpha,
      Table.sin_alpha, Table.tan_phi, Table.get_shear_reinf,
      Table.get_normal_reinf, Table.series.
    cbn [Df.rows Df.has_shear_reinf Df.has_normal_reinf].
    same_columns. reflexivity.
  - rewrite !spencer_unfold. cbv zeta. cbn [Py.table fst].
    unfold Table.cos_alpha, Table.sin_alpha, Table.tan_phi,
      Table.get_shear_reinf, Table.get_normal_reinf, Table.series, Table.array.
    cbn [Df.rows Df.has_shear_reinf Df.has_normal_reinf].
    same_columns. reflexivity.
  - rewrite !janbu_simple_unfold. cbv zeta. cbn [Py.table fst].
    unfold Table.cos_alpha, Table.sin_alpha, Table.tan_phi,
      Table.get_shear_reinf, Table.get_normal_reinf, Table.series, Table.array.
    cbn [Df.rows Df.has_shear_reinf Df.has_normal_reinf].
    same_columns. reflexivity.
  - rewrite !janbu_corrected_unfold. cbv zeta. cbn [Py.table fst].
    unfold Table.cos_alpha, Table.sin_alpha, Table.tan_phi,
      Table.get_shear_reinf, Table.get_normal_reinf, Table.series, Table.array.
    cbn [Df.rows Df.has_shear_reinf Df.has_normal_reinf].
    same_columns. reflexivity.
  - rewrite !morgenstern_price_unfold. cbv zeta. cbn [Py.table fst].
    unfold Table.cos_alpha, Table.sin_alpha, Table.tan_phi,
      Table.get_shear_reinf, Table.get_normal_reinf, Table.series, Table.array.
    cbn [Df.rows Df.has_shear_reinf Df.has_normal_reinf].
    same_columns. rewrite length_map. reflexivity.
Qed.

(** ** A missing reinforcement column and a column of zeros *)

Section ReinforcementOnlyInSums.

Local Open Scope np_scope.

Variables (W sr sr' nr nr' c dl u sa ca tp : value) (tol : fl).
Hypothesis driving : W * sa - sr = W * sa - sr'.
Hypothesis normal : W * ca + nr = W * ca + nr'.

Lemma janbu_simple_loop_reinf n :
  forall F,
    Solve.janbu_simple_loop W sr nr c dl u sa ca tp tol n F
    = Solve.janbu_simple_loop W sr' nr' c dl u sa ca tp tol n F.
Proof.
  induction n as [|n IH]; intros F; [reflexivity|].
  cbn [Solve.janbu_simple_loop]. cbv zeta. rewrite driving, normal.
  match goal with |- (if ?b then _ else _) = _ => destruct b end;
    [reflexivity | apply IH].
Qed.

Lemma janbu_corrected_loop_reinf n :
  forall F lam,
    Solve.janbu_corrected_loop W sr nr c dl u sa ca tp tol n F lam
    = Solve.janbu_corrected_loop W sr' nr' c dl u sa ca tp tol n F lam.
Proof.
  induction n as [|n IH]; intros F lam; [reflexivity|].
  cbn [Solve.janbu_corrected_loop]. cbv zeta. rewrite driving, normal.
  match goal with |- (if ?b then _ else _) = _ => destruct b end;
    [reflexivity | apply IH].
Qed.

Lemma morgenstern_price_loop_reinf psi n :
  forall F lam,
    Solve.morgenstern_price_loop W sr nr c dl u sa ca tp psi tol n F lam
    = Solve.morgenstern_price_loop W sr' nr' c dl u sa ca tp psi tol n F lam.
Proof.
  induction n as [|n IH]; intros F lam; [reflexivity|].
  cbn [Solve.morgenstern_price_loop]. cbv zeta. rewrite driving, normal.
  match goal with |- (if ?b then _ else _) = _ => destruct b end;
    [reflexivity | apply IH].
Qed.

Lemma spencer_loop_shear_reinf pr n :
  forall F beta,
    Solve.spencer_loop W sr nr c dl u sa ca tp pr tol n F beta
    = Solve.spencer_loop W sr' nr c dl u sa ca tp pr tol n F beta.
Proof.
  induction n as [|n IH]; intros F beta; [reflexivity|].
  cbn [Solve.spencer_loop]. cbv zeta. rewrite driving.
  match goal with |- (if ?b then _ else _) = _ => destruct b end;
    [reflexivity | apply IH].
Qed.

End ReinforcementOnlyInSums.

Lemma zip_with_zeros {A} (f : fl -> fl -> fl) (h : A -> fl) (z : fl)
    (l : list A) :
  Np.zip_with f (map h l) (map (fun _ => z) l) = map (fun x => f x z) (map h l).
Proof. now rewrite zip_with_map, map_map. Qed.

(** X5: [bishop], [spencer], [janbu_simple], [janbu_corrected] and
    [morgenstern_price] treat a missing reinforcement column as a column of
    zeros: filling the table changes none of their outcomes. *)
Theorem missing_reinforcement_column_is_zero :
  forall (df : DataFrame) (g : list (string * value)) (tol : fl)
         (max_iter : nat) (function : fl -> fl),
    let s := Py.mkWorld df g in
    let s' := Py.mkWorld (Replace.fill_reinforcement df) g in
    fst (Solve.bishop tol max_iter s') = fst (Solve.bishop tol max_iter s)
    /\ fst (Solve.spencer tol max_iter s') = fst (Solve.spencer tol max_iter s)
    /\ fst (Solve.janbu_simple tol max_iter s')
       = fst (Solve.janbu_simple tol max_iter s)
    /\ fst (Solve.janbu_corrected tol max_iter s')
       = fst (Solve.janbu_corrected tol max_iter s)
    /\ fst (Solve.morgenstern_price function tol max_iter s')
       = fst (Solve.morgenstern_price function tol max_iter s).
Proof.
  intros [rows hs hn] g tol max_iter function s s'. subst s s'.
  unfold Replace.fill_reinforcement.
  cbn [Df.rows Df.has_shear_reinf Df.has_normal_reinf].
  assert (Hsin : forall (K : list fl -> value) (f : Df.Row -> fl),
             (forall l, K l = Series l \/ K l = NDArray l) ->
             (K (map f rows)
              * Np.sin (Np.radians (Series (map Df.alpha rows)))
              - (if hs then Series (map Df.shear_reinf rows)
                 else Scalar (Fin 0)))%np
             = (K (map f rows)
                * Np.sin (Np.radians (Series (map Df.alpha rows)))
                - Series (map (fun r => if hs then Df.shear_reinf r
                                        else Fin 0) rows))%np).
  { intros K f HK. destruct hs; [reflexivity|].
    destruct (HK (map f rows)) as [-> | ->]; cbn;
      rewrite !map_map, zip_with_map, zip_with_zeros, map_map; reflexivity. }
  assert (Hcos : forall (K : list fl -> value) (f : Df.Row -> fl),
             (forall l, K l = Series l \/ K l = NDArray l) ->
             (K (map f rows)
              * Np.cos (Np.radians (Series (map Df.alpha rows)))
              + (if hn then Series (map Df.normal_reinf rows)
                 else Scalar (Fin 0)))%np
             = (K (map f rows)
                * Np.cos (Np.radians (Series (map Df.alpha rows)))
                + Series (map (fun r => if hn then Df.normal_reinf r
                                        else Fin 0) rows))%np).
  { intros K f HK. destruct hn; [reflexivity|].
    destruct (HK (map f rows)) as [-> | ->]; cbn;
      rewrite !map_map, zip_with_map, zip_with_zeros, map_map; reflexivity. }
  pose proof (Hsin Series Df.w ltac:(now left)) as HsinS.
  pose proof (Hsin NDArray Df.w ltac:(now right)) as HsinA.
  pose proof (Hcos Series Df.w ltac:(now left)) as HcosS.
  clear Hsin Hcos.
  repeat apply conj.
  - rewrite !bishop_unfold. cbv zeta. cbn [Py.table fst].
    unfold Bishop.num, Bishop.denominator, Bishop.N, Table.cos_alpha,
      Table.sin_alpha, Table.tan_phi, Table.get_shear_reinf,
      Table.get_normal_reinf, Table.series.
    cbn [Df.rows Df.has_shear_reinf Df.has_normal_reinf].
    same_columns. rewrite HsinS.
    destruct hn; [reflexivity|].
    cbn; repeat rewrite ?map_map, ?zip_with_map. reflexivity.
  - rewrite !spencer_unfold. cbv zeta. cbn [Py.table fst].
    unfold Table.cos_alpha, Table.sin_alpha, Table.tan_phi,
      Table.get_shear_reinf, Table.get_normal_reinf, Table.series, Table.array.
    cbn [Df.rows Df.has_shear_reinf Df.has_normal_reinf].
    same_columns. f_equal.
    etransitivity; [apply spencer_loop_normal_reinf|].
    symmetry. apply spencer_loop_shear_reinf. exact HsinA.
  - rewrite !janbu_simple_unfold. cbv zeta. cbn [Py.table fst].
    unfold Table.cos_alpha, Table.sin_alpha, Table.tan_phi,
      Table.get_shear_reinf, Table.get_normal_reinf, Table.series, Table.array.
    cbn [Df.rows Df.has_shear_reinf Df.has_normal_reinf].
    same_columns. f_equal. symmetry.
    apply janbu_simple_loop_reinf; [exact HsinS | exact HcosS].
  - rewrite !janbu_corrected_unfold. cbv zeta. cbn [Py.table fst].
    unfold Table.cos_alpha, Table.sin_alpha, Table.tan_phi,
      Table.get_shear_reinf, Table.get_normal_reinf, Table.series, Table.array.
    cbn [Df.rows Df.has_shear_reinf Df.has_normal_reinf].
    same_columns. f_equal. symmetry.
    apply janbu_corrected_loop_reinf; [exact HsinS | exact HcosS].
  - rewrite !morgenstern_price_unfold. cbv zeta. cbn [Py.table fst].
    unfold Table.cos_alpha, Table.sin_alpha, Table.tan_phi,
      Table.get_shear_reinf, Table.get_normal_reinf, Table.series, Table.array.
    cbn [Df.rows Df.has_shear_reinf Df.has_normal_reinf].
    same_columns. rewrite length_map. f_equal. symmetry.
    apply morgenstern_price_loop_reinf; [exact HsinS | exact HcosS].
Qed.

(** ** The shape function of Morgenstern-Price *)

Lemma linspace01_range n x :
  In x (Np.linspace01 n) -> exists r, x = Fin r /\ 0 <= r <= 1.
Proof.
  destruct n as [|[|m]]; cbn [Np.linspace01].
  - intros [].
  - intros [<-|[]]. exists 0. split; [reflexivity | lra].
  - intros H. apply in_map_iff in H. destruct H as (i & <- & Hi).
    apply in_seq in Hi. eexists. split; [reflexivity|].
    assert (Hm : 0 < INR (S m)) by (apply lt_0_INR; lia).
    assert (H0 : 0 <= INR i) by apply pos_INR.
    assert (H1 : INR i <= INR (S m)) by (apply le_INR; lia).
    split.
    + apply Rmult_le_pos; [exact H0|]. left. now apply Rinv_0_lt_compat.
    + apply Rmult_le_reg_r with (INR (S m)); [exact Hm|].
      unfold Rdiv. rewrite Rmult_assoc, Rinv_l by lra. lra.
Qed.

(** X6: [morgenstern_price] evaluates [function] on numbers between 0 and 1
    only: two shape functions that agree there give the same outcome. *)
Theorem morgenstern_price_samples_shape_on_unit_interval :
  forall (s : Py.World) (f1 f2 : fl -> fl) (tol : fl) (max_iter : nat),
    (forall r, 0 <= r <= 1 -> f1 (Fin r) = f2 (Fin r)) ->
    Solve.morgenstern_price f1 tol max_iter s
    = Solve.morgenstern_price f2 tol max_iter s.
Proof.
  intros s f1 f2 tol max_iter H.
  rewrite !morgenstern_price_unfold. cbv zeta. do 4 f_equal.
  apply map_ext_in. intros x Hx.
  apply linspace01_range in Hx. destruct Hx as (r & -> & Hr). now apply H.
Qed.

(** A shape that is 1 on the unit interval and 2 elsewhere *)
Definition unit_step (x : fl) : fl :=
  match x with
  | Fin r => if Rle_dec 0 r then if Rle_dec r 1 then Fin 1 else Fin 2
             else Fin 2
  | _ => Fin 2
  end.

Lemma morgenstern_price_samples_shape_on_unit_interval_witness :
  Solve.morgenstern_price Solve.default_function (Fin (/ 1000000)) 100
    (Py.mkWorld (Df.mkDataFrame [one_slice] false false) [])
  = Solve.morgenstern_price unit_step (Fin (/ 1000000)) 100
      (Py.mkWorld (Df.mkDataFrame [one_slice] false false) []).
Proof.
  apply morgenstern_price_samples_shape_on_unit_interval.
  intros r [H0 H1]. unfold Solve.default_function, unit_step.
  destruct (Rle_dec 0 r); [|contradiction].
  destruct (Rle_dec r 1); [reflexivity | contradiction].
Defined.

(** ** The angle returned by Spencer *)

Section SpencerAngle.

(** A float that is NaN or lies between [-b] and [b] *)
Definition within (b : R) (x : fl) : Prop :=
  x = NaN \/ exists r, x = Fin r /\ - b <= r <= b.

Lemma arcsin_clip_within (x : fl) :
  within (PI / 2) (Float.arcsin (Float.clip x (Fin (-1)) (Fin 1))).
Proof.
  assert (H : forall r, -1 <= r <= 1 ->
                within (PI / 2) (Float.arcsin (Fin r))).
  { intros r [H1 H2]. cbn. destruct (Rle_dec (-1) r); [|contradiction].
    destruct (Rle_dec r 1); [|contradiction].
    right. eexists. split; [reflexivity|]. apply asin_bound. }
  destruct x as [r| | |]; cbn [Float.clip Float.ltb].
  - destruct (Rlt_dec r (-1)); [apply H; lra|].
    destruct (Rlt_dec 1 r); apply H; lra.
  - apply H; lra.
  - apply H; lra.
  - now left.
Qed.

Lemma degrees_within (x : fl) :
  within (PI / 2) x -> within 90 (Float.degrees x).
Proof.
  intros [->|(r & -> & Hr)]; [now left|]. right.
  eexists. split; [reflexivity|].
  pose proof PI_RGT_0 as Hpi.
  assert (Hk : 0 < 180 / PI) by (apply Rdiv_lt_0_compat; lra).
  assert (E : PI / 2 * (180 / PI) = 90) by (field; lra).
  split.
  - rewrite <- E. replace (- (PI / 2 * (180 / PI))) with (- (PI / 2) * (180 / PI)) by ring.
    apply Rmult_le_compat_r; lra.
  - rewrite <- E. apply Rmult_le_compat_r; lra.
Qed.

Lemma spencer_loop_angle (W sr nr c dl u sa ca tp pr : value) (tol : fl) n :
  forall F beta,
    within (PI / 2) beta ->
    within 90 (snd (Solve.spencer_loop W sr nr c dl u sa ca tp pr tol
                      n F beta)).
Proof.
  induction n as [|n IH]; intros F beta Hb.
  - cbn. now apply degrees_within.
  - cbn [Solve.spencer_loop]. cbv zeta.
    match goal with |- context [if ?b then _ else _] => destruct b end.
    + cbn [snd]. apply degrees_within, arcsin_clip_within.
    + apply IH, arcsin_clip_within.
Qed.

End SpencerAngle.

(** X7: The inter-slice angle [spencer] returns is, in degrees, between -90 and
    90, or NaN; it never raises. *)
Theorem spencer_angle_within_90_degrees :
  forall (s : Py.World) (tol : fl) (max_iter : nat),
    exists FS beta,
      Solve.spencer tol max_iter s = (Py.Ok (FS, beta), s)
      /\ within 90 beta.
Proof.
  intros s tol max_iter. rewrite spencer_unfold. cbv zeta.
  match goal with |- context [Solve.spencer_loop ?a ?b ?c ?d ?e ?f ?g ?h ?i ?j ?k ?l ?m ?n] =>
    pose proof (spencer_loop_angle a b c d e f g h i j k l m n) as H;
    destruct (Solve.spencer_loop a b c d e f g h i j k l m n) as [FS beta]
  end.
  exists FS, beta. split; [reflexivity|]. apply H.
  right. exists 0. split; [reflexivity|]. pose proof PI_RGT_0. lra.
Qed.

(** ** The pieces of [spencer_moment], spelled out on the table *)


(** X8: [spencer_moment] raises AttributeError on a table that lacks a
    reinforcement column, before the search is started; otherwise it hands
    [fs_difference], the bounds and the tolerance to the minimiser, passes on
    what the minimiser raises, and returns the angle the minimiser found,
    unchanged, with [fs_force] at that angle. *)
Theorem spencer_moment_outcome :
  forall (rows : list Df.Row) (hs hn : bool) (g : list (string * value))
         (minimize_scalar : (fl -> fl) -> fl * fl -> fl -> Py.result fl)
         (beta_bounds : fl * fl) (tol : fl) (max_iter : nat),
    let df := Df.mkDataFrame rows hs hn in
    let s := Py.mkWorld df g in
    Solve.spencer_moment minimize_scalar beta_bounds tol max_iter s
    = (if hs && hn
       then match minimize_scalar
                    (SpencerMoment.fs_difference df tol max_iter)
                    beta_bounds tol with
            | Py.Ok beta_deg =>
                Py.Ok (SpencerMoment.fs_force df tol max_iter
                         (Float.radians beta_deg), beta_deg)
            | Py.Raise e => Py.Raise e
            end
       else Py.Raise Py.AttributeError, s).
Proof.
  intros rows hs hn g ms bounds tol max_iter df s. subst df s.
  unfold Solve.spencer_moment, Py.bind.
  destruct hs, hn; cbn [andb]; try reflexivity.
  cbn -[Float.radians Float.sin Float.cos Float.abs Float.sub].
  unfold SpencerMoment.fs_difference, SpencerMoment.fs_force,
    SpencerMoment.fs_moment, Table.array, Table.cos_alpha, Table.sin_alpha,
    Table.tan_phi, Table.series. cbv zeta. cbn [Df.rows].
  destruct (ms _ bounds tol); reflexivity.
Qed.

Section ForceLoop.

Local Open Scope np_scope.

Variables (w u dl c normal_reinf shear_reinf : value).
Variables (sin_alpha cos_alpha cos2_alpha tan_phi sin_beta cos_beta : value).
Variable tol : fl.

Let F_new : fl :=
  let N := w * cos_alpha - u * dl * cos2_alpha + normal_reinf in
  let num := c * dl * cos_beta
             + N * (cos_alpha * cos_beta - sin_alpha * sin_beta) * tan_phi in
  let T := w * sin_alpha - shear_reinf in
  (Np.sum num / Np.sum T)%fl.

Lemma fs_force_loop_settled n :
  Solve.fs_force_loop w u dl c normal_reinf shear_reinf sin_alpha cos_alpha
    cos2_alpha tan_phi sin_beta cos_beta tol n F_new = F_new.
Proof.
  induction n as [|n IH]; [reflexivity|].
  cbn [Solve.fs_force_loop]. cbv zeta. fold F_new.
  destruct (Float.ltb _ tol); [reflexivity | exact IH].
Qed.

Lemma fs_force_loop_closed n F :
  Solve.fs_force_loop w u dl c normal_reinf shear_reinf sin_alpha cos_alpha
    cos2_alpha tan_phi sin_beta cos_beta tol (S n) F
  = if Float.ltb (Float.abs (F_new - F)) tol then F else F_new.
Proof.
  cbn [Solve.fs_force_loop]. cbv zeta. fold F_new.
  destruct (Float.ltb _ tol); [reflexivity | apply fs_force_loop_settled].
Qed.

End ForceLoop.

(** X9: The loop of [fs_force] recomputes one and the same value on every pass:
    with at least one pass allowed, [fs_force] is that value, or the initial
    guess 1.0 when the value is within the tolerance of it, whatever
    [max_iter]. *)
Theorem fs_force_is_closed_form :
  forall (df : DataFrame) (tol : fl) (n : nat) (beta_rad : fl),
    SpencerMoment.fs_force df tol (S n) beta_rad
    = if Float.ltb (Float.abs (SpencerMoment.F_new df beta_rad - Fin 1)) tol
      then Fin 1
      else SpencerMoment.F_new df beta_rad.
Proof.
  intros df tol n beta_rad. unfold SpencerMoment.fs_force.
  rewrite fs_force_loop_closed. reflexivity.
Qed.

(** ** The Janbu and Morgenstern-Price iterations, spelled out on the table *)


Section JanbuSimpleLoop.

Variables (df : DataFrame) (tol : fl).

Let loop n F :=
  Solve.janbu_simple_loop (Table.series Df.w df) (Table.get_shear_reinf df)
    (Table.get_normal_reinf df) (Table.array Df.c df) (Table.array Df.dl df)
    (Table.array Df.u df) (Table.sin_alpha df) (Table.cos_alpha df)
    (Table.tan_phi df) tol n F.

Let near (F0 : fl) (j : nat) : bool :=
  Float.ltb (Float.abs (Nat.iter j (Janbu.F_new df) F0
                        - Nat.iter (pred j) (Janbu.F_new df) F0)) tol.

Lemma janbu_simple_loop_stops :
  forall n F0,
  exists k, (k <= n)%nat
    /\ loop n F0 = Nat.iter k (Janbu.F_new df) F0
    /\ (forall j, (1 <= j < k)%nat -> near F0 j = false)
    /\ ((k < n)%nat -> (1 <= k)%nat /\ near F0 k = true).
Proof.
  induction n as [|n IH]; intros F0.
  - exists 0%nat. repeat split; try lia; reflexivity.
  - unfold loop. cbn [Solve.janbu_simple_loop]. cbv zeta.
    fold (Janbu.F_new df F0). fold (loop n (Janbu.F_new df F0)).
    destruct (Float.ltb (Float.abs (Janbu.F_new df F0 - F0)) tol) eqn:Hc.
    + exists 1%nat. repeat split; try lia; exact Hc.
    + destruct (IH (Janbu.F_new df F0)) as (k & Hk & Hrun & Hbefore & Hearly).
      assert (Hshift : forall j, (1 <= j)%nat ->
                near F0 (S j) = near (Janbu.F_new df F0) j).
      { intros j Hj. unfold near. destruct j as [|j]; [lia|].
        cbn [pred]. now rewrite <- !Nat.iter_succ_r. }
      exists (S k). rewrite Hrun, Nat.iter_succ_r.
      repeat split; try lia.
      * intros j Hj. destruct j as [|[|j]]; [lia| |].
        -- exact Hc.
        -- rewrite Hshift by lia. apply Hbefore; lia.
      * destruct Hearly as [Hk1 Hnear]; [lia|].
        rewrite Hshift by lia. exact Hnear.
Qed.

End JanbuSimpleLoop.

(** X10: [janbu_simple] never raises and returns the [F_new] of its last pass:
    pass [k] is the first within the tolerance, or [k = max_iter] with no
    word on whether the tolerance was met. *)
Theorem janbu_simple_returns_last_pass :
  forall (s : Py.World) (tol : fl) (max_iter : nat),
    let df := Py.table s in
    exists k, (k <= max_iter)%nat
      /\ Solve.janbu_simple tol max_iter s = (Py.Ok (Janbu.iterate df k), s)
      /\ (forall j, (1 <= j < k)%nat -> Janbu.within_tol df tol j = false)
      /\ ((k < max_iter)%nat ->
          (1 <= k)%nat /\ Janbu.within_tol df tol k = true).
Proof.
  intros s tol max_iter df.
  destruct (janbu_simple_loop_stops df tol max_iter (Fin 1))
    as (k & Hk & Hrun & Hbefore & Hearly).
  exists k. rewrite janbu_simple_unfold. cbv zeta. fold df. rewrite Hrun.
  repeat split; try assumption; now apply Hearly.
Qed.

Section CorrectedLoops.

Variables (df : DataFrame) (tol : fl).

Lemma janbu_corrected_loop_run n :
  forall F lam,
    Solve.janbu_corrected_loop (Table.series Df.w df)
      (Table.get_shear_reinf df) (Table.get_normal_reinf df)
      (Table.array Df.c df) (Table.array Df.dl df) (Table.array Df.u df)
      (Table.sin_alpha df) (Table.cos_alpha df) (Table.tan_phi df)
      tol n F lam
    = Janbu.run (Janbu.step df) tol n (F, lam).
Proof.
  induction n as [|n IH]; intros F lam; [reflexivity|].
  cbn [Solve.janbu_corrected_loop Janbu.run]. cbv zeta.
  unfold Janbu.close, Janbu.step at 1 2. cbn [fst snd].
  match goal with |- (if ?b then _ else _) = _ => destruct b end;
    [reflexivity | apply IH].
Qed.

Lemma morgenstern_price_loop_run psi n :
  forall F lam,
    Solve.morgenstern_price_loop (Table.series Df.w df)
      (Table.get_shear_reinf df) (Table.get_normal_reinf df)
      (Table.array Df.c df) (Table.array Df.dl df) (Table.array Df.u df)
      (Table.sin_alpha df) (Table.cos_alpha df) (Table.tan_phi df) psi
      tol n F lam
    = Janbu.run (Janbu.step_with psi df) tol n (F, lam).
Proof.
  induction n as [|n IH]; intros F lam; [reflexivity|].
  cbn [Solve.morgenstern_price_loop Janbu.run]. cbv zeta.
  unfold Janbu.close, Janbu.step_with at 1 2. cbn [fst snd].
  match goal with |- (if ?b then _ else _) = _ => destruct b end;
    [reflexivity | apply IH].
Qed.

Variable f : fl * fl -> fl * fl.

Lemma run_stops :
  forall n st,
  exists k, (k <= n)%nat
    /\ Janbu.run f tol n st
       = (fst (Nat.iter k f st), snd (Nat.iter k f st), (k <? n)%nat)
    /\ (forall j, (j < k)%nat ->
          Janbu.close tol (Nat.iter j f st) (Nat.iter (S j) f st) = false)
    /\ ((k < n)%nat ->
        Janbu.close tol (Nat.iter k f st) (Nat.iter (S k) f st) = true).
Proof.
  induction n as [|n IH]; intros st.
  - exists 0%nat. repeat split; try lia; reflexivity.
  - cbn [Janbu.run]. destruct (Janbu.close tol st (f st)) eqn:Hc.
    + exists 0%nat. repeat split; try lia. intros _. exact Hc.
    + destruct (IH (f st)) as (k & Hk & Hrun & Hbefore & Hearly).
      assert (Hshift : forall j, Nat.iter (S j) f st = Nat.iter j f (f st))
        by (intros j; apply Nat.iter_succ_r).
      exists (S k). rewrite Hrun, (Hshift k).
      repeat split; try lia.
      * intros j Hj. destruct j as [|j]; [exact Hc|].
        rewrite (Hshift (S j)), (Hshift j). apply Hbefore. lia.
      * intros Hlt. rewrite (Hshift (S k)). apply Hearly. lia.
Qed.

End CorrectedLoops.

(** X11: [janbu_corrected] never raises.  When a pass meets the tolerance it
    returns, with the flag set, the [F] and [lambda] that pass started from,
    not the ones it computed; when no pass does it returns the values after
    [max_iter] passes, with the flag cleared. *)
Theorem janbu_corrected_returns_start_of_last_pass :
  forall (s : Py.World) (tol : fl) (max_iter : nat),
    let st := Janbu.state (Janbu.step (Py.table s)) in
    exists k, (k <= max_iter)%nat
      /\ Solve.janbu_corrected tol max_iter s
         = (Py.Ok (fst (st k), snd (st k), (k <? max_iter)%nat), s)
      /\ (forall j, (j < k)%nat -> Janbu.close tol (st j) (st (S j)) = false)
      /\ ((k < max_iter)%nat -> Janbu.close tol (st k) (st (S k)) = true).
Proof.
  intros s tol max_iter st.
  destruct (run_stops tol (Janbu.step (Py.table s)) max_iter (Fin 1, Fin 0))
    as (k & Hk & Hrun & Hbefore & Hearly).
  exists k. rewrite janbu_corrected_unfold. cbv zeta.
  rewrite janbu_corrected_loop_run, Hrun. repeat split; assumption.
Qed.

(** X12: [morgenstern_price] never raises, whatever the shape function.  When a
    pass meets the tolerance it returns, with the flag set, the [F] and [lam]
    that pass started from, not the ones it computed; when no pass does it
    returns the values after [max_iter] passes, with the flag cleared. *)
Theorem morgenstern_price_returns_start_of_last_pass :
  forall (s : Py.World) (function : fl -> fl) (tol : fl) (max_iter : nat),
    let df := Py.table s in
    let st := Janbu.state (Janbu.step_with (Janbu.psi function df) df) in
    exists k, (k <= max_iter)%nat
      /\ Solve.morgenstern_price function tol max_iter s
         = (Py.Ok (fst (st k), snd (st k), (k <? max_iter)%nat), s)
      /\ (forall j, (j < k)%nat -> Janbu.close tol (st j) (st (S j)) = false)
      /\ ((k < max_iter)%nat -> Janbu.close tol (st k) (st (S k)) = true).
Proof.
  intros s function tol max_iter df st.
  destruct (run_stops tol (Janbu.step_with (Janbu.psi function df) df)
              max_iter (Fin 1, Fin 0))
    as (k & Hk & Hrun & Hbefore & Hearly).
  exists k. rewrite morgenstern_price_unfold. cbv zeta. fold df.
  fold (Janbu.psi function df).
  rewrite morgenstern_price_loop_run, Hrun. repeat split; assumption.
Qed.

(** ** Ground surface: the order of the profile lines does not matter *)

Section OrderOfLines.

Import Shapely Utils Dominance.

Lemma key_leb_trans p q r :
  key_leb p q = true -> key_leb q r = true -> key_leb p r = true.
Proof. unfold key_leb. rewrite !tuple_leb_spec. lra. Qed.

Lemma key_leb_antisym p q :
  key_leb p q = true -> key_leb q p = true -> p = q.
Proof.
  unfold key_leb. rewrite !tuple_leb_spec. destruct p as [x y], q as [x' y'].
  cbn [fst snd]. intros H1 H2. f_equal; lra.
Qed.

Lemma sorted_perm_eq (leb : Point -> Point -> bool) :
  (forall p q, leb p q = true -> leb q p = true -> p = q) ->
  forall l l',
    StronglySorted (fun p q => leb p q = true) l ->
    StronglySorted (fun p q => leb p q = true) l' ->
    Permutation l l' -> l = l'.
Proof.
  intros Hanti. induction l as [|a t IH]; intros l' Hl Hl' Hperm.
  - apply Permutation_nil in Hperm. now subst.
  - destruct l' as [|b t'];
      [apply Permutation_sym, Permutation_nil in Hperm; discriminate|].
    inversion Hl as [|? ? Ht Ha]; subst.
    inversion Hl' as [|? ? Ht' Hb]; subst.
    rewrite Forall_forall in Ha, Hb.
    assert (a = b).
    { assert (Hb_in : In b (a :: t))
        by (eapply Permutation_in; [apply Permutation_sym, Hperm | now left]).
      assert (Ha_in : In a (b :: t'))
        by (eapply Permutation_in; [apply Hperm | now left]).
      destruct Hb_in as [E|Hbt]; [exact E|].
      destruct Ha_in as [E|Hat']; [now symmetry|].
      apply Hanti; [now apply Ha | now apply Hb]. }
    subst b. f_equal. apply IH; try assumption.
    eapply Permutation_cons_inv; exact Hperm.
Qed.

Variables lines lines' : list (list Point).
Hypothesis same_lines : forall l, l <> [] -> (In l lines <-> In l lines').

Lemma same_points p :
  In p (List.concat lines) <-> In p (List.concat lines').
Proof.
  rewrite !in_concat. split; intros (l & Hl & Hp); exists l;
    (split; [|exact Hp]); apply same_lines; try assumption;
    intros ->; destruct Hp.
Qed.

Lemma same_all_points : all_points lines = all_points lines'.
Proof.
  unfold all_points, set_of.
  apply (sorted_perm_eq key_leb key_leb_antisym).
  - apply sorted_by_sorted; [apply key_leb_total | apply key_leb_trans].
  - apply sorted_by_sorted; [apply key_leb_total | apply key_leb_trans].
  - rewrite !sorted_by_perm. apply NoDup_Permutation; try apply NoDup_nodup.
    intros p. rewrite !nodup_In. apply same_points.
Qed.

Lemma same_dominated x y :
  dominated_by_some_line lines x y <-> dominated_by_some_line lines' x y.
Proof.
  unfold dominated_by_some_line.
  split; intros (l & Hl & Hd); exists l; (split; [|exact Hd]);
    apply same_lines; try assumption;
    intros ->; destruct Hd as (ls & Hnew & Hlen & _);
    injection Hnew as <-; now apply Hlen.
Qed.

(** Where both scans come to an end they decide alike *)
Lemma same_keep x y k k' :
  keep_loop x y lines = Py.Ok k -> keep_loop x y lines' = Py.Ok k' -> k = k'.
Proof.
  intros Hk Hk'.
  pose proof (keep_loop_dominated x y lines k Hk) as H.
  pose proof (keep_loop_dominated x y lines' k' Hk') as H'.
  rewrite <- same_dominated in H'.
  destruct k, k'; try reflexivity.
  - apply H, H'. reflexivity.
  - symmetry. apply H', H. reflexivity.
Qed.

Lemma same_surface_points pts pts' :
  top_surface_points lines = Py.Ok pts ->
  top_surface_points lines' = Py.Ok pts' -> pts = pts'.
Proof.
  intros Hrun Hrun'.
  pose proof (top_surface_points_filter _ _ Hrun) as E.
  pose proof (top_surface_points_filter _ _ Hrun') as E'.
  unfold top_surface_points, top_candidates in *.
  rewrite <- same_all_points in *.
  subst pts pts'. apply filter_ext_in. intros p Hp.
  destruct (surface_loop_keep_ok _ _ _ _ p Hrun Hp) as [k Hk].
  destruct (surface_loop_keep_ok _ _ _ _ p Hrun' Hp) as [k' Hk'].
  unfold keeps. rewrite Hk, Hk', (same_keep _ _ _ _ Hk Hk'). reflexivity.
Qed.

Lemma same_ground_surface ls ls' :
  build_ground_surface lines = Py.Ok ls ->
  build_ground_surface lines' = Py.Ok ls' -> ls = ls'.
Proof.
  intros H H'. apply build_ground_surface_coords in H, H'.
  destruct H as (pts & Hpts & Hc), H' as (pts' & Hpts' & Hc').
  rewrite (same_surface_points _ _ Hpts Hpts') in Hc.
  destruct ls, ls'. cbn in *. congruence.
Qed.

End OrderOfLines.

Lemma crossing_ground_surface_reordered :
  Utils.build_ground_surface [line_B; []; line_A]
  = Py.Ok (Shapely.mkLineString [(0, 5); (10, 10)]).
Proof.
  pose proof line_A_length as HA. pose proof line_B_length as HB.
  assert (Hc : Utils.top_candidates [line_B; []; line_A]
               = [(0, 5); (10, 10)]).
  { unfold line_A, line_B. candidates_eval. reflexivity. }
  assert (Hempty : Shapely.length (Shapely.mkLineString []) = 0)
    by reflexivity.
  assert (Hleft : Utils.keep_loop 0 5 [line_B; []; line_A]
                  = Py.Ok true).
  { unfold line_A, line_B. cbn [Utils.keep_loop Shapely.new].
    rewrite Hempty, !length_two, !project_two.
    replace (Shapely.projection_factor (0, 0) (10, 10) (0, 0)) with 0
      by (unfold Shapely.projection_factor; cbn [fst snd]; rdec; lra).
    replace (Shapely.projection_factor (0, 5) (10, 5) (0, 0)) with 0
      by (unfold Shapely.projection_factor; cbn [fst snd]; rdec; lra).
    rdec. reflexivity. }
  assert (Hright : Utils.keep_loop 10 10 [line_B; []; line_A]
                   = Py.Ok true).
  { unfold line_A, line_B. cbn [Utils.keep_loop Shapely.new].
    rewrite Hempty, !length_two, !project_two.
    replace (Shapely.projection_factor (0, 0) (10, 10) (10, 0)) with (1 / 2)
      by (unfold Shapely.projection_factor; cbn [fst snd]; rdec; lra).
    replace (Shapely.projection_factor (0, 5) (10, 5) (10, 0)) with 1
      by (unfold Shapely.projection_factor; cbn [fst snd]; rdec; lra).
    rdec. rewrite interpolate_two by lra.
    replace (1 / 2 * Shapely.distance (0, 0) (10, 10)
             / Shapely.distance (0, 0) (10, 10))
      with (1 / 2) by (field; lra).
    unfold Shapely.point_along; cbn [fst snd]. rdec. reflexivity. }
  unfold Utils.build_ground_surface, Utils.top_surface_points.
  rewrite Hc.
  unfold Utils.item_leb, Utils.tuple_leb;
    cbn [Utils.sorted_by fold_right Utils.insert_by fst snd]; rdec.
  cbn [Utils.surface_loop].
  rewrite Hleft, Hright. reflexivity.
Qed.

(** X16: The line [build_ground_surface] returns depends on the set of
    non-empty profile lines only: where it returns both for a list of lines
    and for the same lines reordered, with one listed twice or with empty
    lines added, it returns the same line. *)
Theorem ground_surface_ignores_order_and_repetition :
  forall (lines lines' : list (list Shapely.Point))
         (ls ls' : Shapely.LineString),
    (forall l, l <> [] -> (In l lines <-> In l lines')) ->
    Utils.build_ground_surface lines = Py.Ok ls ->
    Utils.build_ground_surface lines' = Py.Ok ls' ->
    ls = ls'.
Proof.
  intros lines lines' ls ls' Hsame. now apply same_ground_surface.
Qed.

Lemma ground_surface_ignores_order_and_repetition_witness :
  Shapely.mkLineString [(0, 5); (10, 10)]
  = Shapely.mkLineString [(0, 5); (10, 10)].
Proof.
  apply (ground_surface_ignores_order_and_repetition
           [line_A; line_B] [line_B; []; line_A]).
  - intros l Hl. cbn. split.
    + intros [H|[H|[]]]; auto.
    + intros [H|[H|[H|[]]]]; auto; now elim Hl.
  - exact crossing_ground_surface.
  - exact crossing_ground_surface_reordered.
Defined.

(** ** The point found by [project] and [interpolate] is a nearest one *)

Section NearestPoint.

Import Shapely.

(** The consecutive pairs of vertices *)
Fixpoint segments (pts : list Point) : list (Point * Point) :=
  match pts with
  | a :: (b :: _) as rest => (a, b) :: segments rest
  | _ => []
  end.

Lemma segment_distance_le_ends a b p :
  segment_distance a b p <= distance p a
  /\ segment_distance a b p <= distance p b.
Proof.
  unfold segment_distance, distance, point_along, projection_factor.
  destruct a as [ax ay], b as [bx b_y], p as [px py]. cbn [fst snd].
  set (dx := bx - ax). set (dy := b_y - ay).
  set (len2 := dx * dx + dy * dy).
  set (D := (px - ax) * dx + (py - ay) * dy).
  set (U := (px - ax) * (px - ax) + (py - ay) * (py - ay)).
  assert (Hlen2 : 0 <= len2) by (unfold len2; nra).
  assert (Et : forall t,
            (ax + t * dx - px) * (ax + t * dx - px)
            + (ay + t * dy - py) * (ay + t * dy - py)
            = t * t * len2 - 2 * t * D + U)
    by (intros t; unfold len2, D, U; ring).
  assert (Ea : (ax - px) * (ax - px) + (ay - py) * (ay - py) = U)
    by (unfold U; ring).
  assert (Eb : (bx - px) * (bx - px) + (b_y - py) * (b_y - py)
               = len2 - 2 * D + U)
    by (unfold len2, D, U, dx, dy; ring).
  rewrite Ea, Eb. clearbody U. clear Ea Eb.
  destruct (Reqb len2 0) eqn:E0.
  - apply Reqb_spec in E0.
    assert (dx = 0 /\ dy = 0) as [Hdx Hdy] by (unfold len2 in E0; split; nra).
    rewrite Et. split; apply sqrt_le_1_alt; [lra|].
    assert (HD : D = 0) by (unfold D; rewrite Hdx, Hdy; ring).
    rewrite E0, HD. lra.
  - assert (Hpos : 0 < len2).
    { destruct (Req_dec len2 0) as [H|H]; [|lra].
      apply Reqb_true in H. congruence. }
    set (r := D / len2).
    assert (HD : D = r * len2) by (unfold r; field; lra).
    clearbody r. clearbody D. subst D.
    destruct (Rleb r 0) eqn:Er0.
    + apply Rleb_spec in Er0. rewrite Et.
      split; apply sqrt_le_1_alt; [lra|]. nra.
    + destruct (Rleb 1 r) eqn:Er1.
      * apply Rleb_spec in Er1. rewrite Et.
        split; apply sqrt_le_1_alt; [|lra]. nra.
      * rewrite Et.
        assert (0 <= r * r * len2)
          by (apply Rmult_le_pos; [apply Rle_0_sqr | exact Hlen2]).
        assert (0 <= (1 - r) * (1 - r) * len2)
          by (apply Rmult_le_pos; [apply Rle_0_sqr | exact Hlen2]).
        split; apply sqrt_le_1_alt.
        -- replace (r * r * len2 - 2 * r * (r * len2) + U)
             with (U - r * r * len2) by ring. lra.
        -- replace (r * r * len2 - 2 * r * (r * len2) + U)
             with (len2 - 2 * (r * len2) + U - (1 - r) * (1 - r) * len2)
             by ring. lra.
Qed.

Lemma length_of_cons a b rest :
  length_of (a :: b :: rest) = distance a b + length_of (b :: rest).
Proof. reflexivity. Qed.

Lemma interpolate_from_cons a b rest d :
  interpolate_from (a :: b :: rest) d
  = if Rltb d (distance a b) then point_along a b (d / distance a b)
    else interpolate_from (b :: rest) (d - distance a b).
Proof. reflexivity. Qed.

Lemma length_of_nonneg pts : 0 <= length_of pts.
Proof.
  induction pts as [|a pts IH]; [cbn; lra|].
  destruct pts as [|b rest]; [cbn; lra|].
  change (0 <= distance a b + length_of (b :: rest)).
  pose proof (distance_nonneg a b). lra.
Qed.

Lemma distance_zero a b : distance a b = 0 -> a = b.
Proof.
  unfold distance. destruct a as [ax ay], b as [bx b_y]. cbn [fst snd].
  remember (bx - ax) as dx eqn:Hdx. remember (b_y - ay) as dy eqn:Hdy.
  intros H.
  assert (Hnn : 0 <= dx * dx + dy * dy) by nra.
  pose proof (sqrt_eq_0 _ Hnn H) as H0.
  assert (dx = 0 /\ dy = 0) as [Hx Hy] by (split; nra).
  f_equal; lra.
Qed.

Lemma point_along_end a b : point_along a b 1 = b.
Proof.
  unfold point_along. destruct a, b. cbn [fst snd]. f_equal; ring.
Qed.

Lemma point_along_same a t : point_along a a t = a.
Proof.
  unfold point_along. destruct a. cbn [fst snd]. f_equal; ring.
Qed.

Lemma point_along_start a b l : point_along a b (0 / l) = a.
Proof.
  unfold point_along. destruct a, b. cbn [fst snd].
  unfold Rdiv. rewrite !Rmult_0_l, !Rplus_0_r. reflexivity.
Qed.

Lemma interpolate_from_start post :
  forall b d, d = 0 -> interpolate_from (b :: post) d = b.
Proof.
  induction post as [|c post IH]; intros b d ->; [reflexivity|].
  rewrite interpolate_from_cons.
  pose proof (distance_nonneg b c) as Hl.
  destruct (Rltb 0 (distance b c)) eqn:E.
  - apply point_along_start.
  - assert (H0 : distance b c = 0).
    { destruct (Rlt_dec 0 (distance b c)) as [H|H]; [|lra].
      apply Rltb_true in H. congruence. }
    rewrite H0, (distance_zero _ _ H0). apply IH. lra.
Qed.

Lemma head_of_prefix (pre : list Point) a b post x rest :
  pre ++ a :: b :: post = x :: rest -> exists tl, pre ++ [a] = x :: tl.
Proof.
  destruct pre as [|c pre]; cbn; intros [= <- <-]; eauto.
Qed.

(** The point at the measure of a position on a segment is that position *)
Lemma interpolate_from_segment a b post t :
  0 <= t <= 1 ->
  forall pre d,
    d = length_of (pre ++ [a]) + t * distance a b ->
    interpolate_from (pre ++ a :: b :: post) d = point_along a b t.
Proof.
  intros Ht. pose proof (distance_nonneg a b) as Hab.
  induction pre as [|c pre IH]; intros d ->.
  - cbn [app length_of]. rewrite interpolate_from_cons.
    destruct (Rltb (0 + t * distance a b) (distance a b)) eqn:E.
    + apply Rltb_spec in E. f_equal. field. nra.
    + assert (Hge : distance a b <= 0 + t * distance a b).
      { destruct (Rlt_dec (0 + t * distance a b) (distance a b)) as [H|H];
          [|lra].
        apply Rltb_true in H. congruence. }
      rewrite interpolate_from_start by nra.
      destruct (Req_dec (distance a b) 0) as [H0|H0].
      * rewrite (distance_zero _ _ H0). now rewrite point_along_same.
      * assert (t = 1) by nra. subst t. now rewrite point_along_end.
  - destruct (pre ++ a :: b :: post) as [|x rest] eqn:Hrest;
      [now destruct pre|].
    destruct (head_of_prefix _ _ _ _ _ _ Hrest) as [tl Htl].
    cbn [app]. rewrite Hrest, Htl, length_of_cons, interpolate_from_cons.
    pose proof (distance_nonneg c x) as Hcx.
    pose proof (length_of_nonneg (x :: tl)) as Htlnn.
    rewrite Rltb_false by nra.
    apply IH. rewrite Htl. lra.
Qed.

Variable p : Point.

Definition nearer_than (min_distance : option R) (d : R) : Prop :=
  match min_distance with
  | None => True
  | Some d0 => d < d0
  end.

Definition none_nearer (min_distance : option R) (pts : list Point) : Prop :=
  match min_distance with
  | None => segments pts = []
  | Some d0 => Forall (fun s => d0 <= segment_distance (fst s) (snd s) p)
                 (segments pts)
  end.

(** The scan keeps its measure when no segment is nearer than the distance it
    starts with, and ends at the nearest position of a nearest segment
    otherwise. *)
Lemma project_from_nearest :
  forall pts min_distance pt_measure segment_start,
    -1 < segment_start ->
    (project_from pts p min_distance pt_measure segment_start = pt_measure
     /\ none_nearer min_distance pts)
    \/ (exists pre a b post,
          pts = pre ++ a :: b :: post
          /\ project_from pts p min_distance pt_measure segment_start
             = segment_start + length_of (pre ++ [a])
               + projection_factor a b p * distance a b
          /\ Forall (fun s => segment_distance a b p
                              <= segment_distance (fst s) (snd s) p)
               (segments pts)
          /\ nearer_than min_distance (segment_distance a b p)).
Proof.
  induction pts as [|a pts IH]; intros md pm s Hs.
  { left. split; [reflexivity|]. destruct md; cbn; constructor. }
  destruct pts as [|b rest].
  { left. split; [reflexivity|]. destruct md; cbn; constructor. }
  pose proof (distance_nonneg a b) as Hab.
  pose proof (projection_factor_range a b p) as Hpf.
  set (sd := segment_distance a b p).
  set (sm := s + projection_factor a b p * distance a b).
  assert (Hsm : -1 < sm) by (unfold sm; nra).
  assert (Hs' : -1 < s + distance a b) by lra.
  assert (Hshift : forall pre a' b' post,
            b :: rest = pre ++ a' :: b' :: post ->
            length_of ((a :: pre) ++ [a'])
            = distance a b + length_of (pre ++ [a'])).
  { intros pre a' b' post E. symmetry in E.
    destruct (head_of_prefix _ _ _ _ _ _ E) as [tl Htl].
    cbn [app]. rewrite Htl. apply length_of_cons. }
  change (project_from (a :: b :: rest) p md pm s)
    with (if (match md with None => true | Some d => Rltb sd d end)
               && Rltb (-1) sm
          then project_from (b :: rest) p (Some sd) sm (s + distance a b)
          else project_from (b :: rest) p md pm (s + distance a b)).
  rewrite (Rltb_true _ _ Hsm), andb_true_r.
  cbn [segments]. fold (segments (b :: rest)).
  destruct (match md with None => true | Some d => Rltb sd d end) eqn:Hn.
  - assert (Hnear : nearer_than md sd).
    { destruct md as [d0|]; cbn; [now apply Rltb_spec | exact I]. }
    right.
    destruct (IH (Some sd) sm (s + distance a b) Hs')
      as [[Hres Hnone]|(pre & a' & b' & post & E & Hres & Hmin & Hlt)].
    + exists [], a, b, rest. cbn [app length_of].
      repeat split; try assumption.
      * rewrite Hres. unfold sm. lra.
      * constructor; [cbn [fst snd]; fold sd; lra | exact Hnone].
    + exists (a :: pre), a', b', post. cbn in Hlt.
      repeat split.
      * cbn [app]. now rewrite E.
      * rewrite Hres, (Hshift _ _ _ _ E). lra.
      * constructor; [cbn [fst snd]; fold sd; lra | exact Hmin].
      * destruct md as [d0|]; cbn in *; [lra | exact I].
  - destruct md as [d0|]; [|discriminate].
    assert (Hfar : d0 <= sd).
    { destruct (Rlt_dec sd d0) as [H|H]; [|lra].
      apply Rltb_true in H. congruence. }
    destruct (IH (Some d0) pm (s + distance a b) Hs')
      as [[Hres Hnone]|(pre & a' & b' & post & E & Hres & Hmin & Hlt)].
    + left. split; [exact Hres|]. cbn. constructor; [exact Hfar | exact Hnone].
    + right. exists (a :: pre), a', b', post. cbn in Hlt.
      repeat split.
      * cbn [app]. now rewrite E.
      * rewrite Hres, (Hshift _ _ _ _ E). lra.
      * constructor; [cbn [fst snd]; fold sd; lra | exact Hmin].
      * exact Hlt.
Qed.

Lemma vertex_on_segment pts v :
  (2 <= List.length pts)%nat -> In v pts ->
  exists s, In s (segments pts) /\ (v = fst s \/ v = snd s).
Proof.
  induction pts as [|a pts IH]; cbn [List.length]; [lia|].
  destruct pts as [|b rest]; cbn [List.length]; [lia|].
  intros _ [<-|Hin].
  - exists (a, b). split; [now left | now left].
  - destruct rest as [|c rest].
    + destruct Hin as [<-|[]]. exists (a, b). split; [now left | now right].
    + destruct IH as (s & Hs & Hv); [cbn; lia | exact Hin |].
      exists s. split; [now right | exact Hv].
Qed.

Lemma segments_In pre a b post :
  In (a, b) (segments (pre ++ a :: b :: post)).
Proof.
  induction pre as [|c pre IH]; [now left|].
  destruct (pre ++ a :: b :: post) as [|x rest] eqn:E; [now destruct pre|].
  cbn [app]. rewrite E. right. exact IH.
Qed.

Lemma segment_vertices pts a b :
  In (a, b) (segments pts) -> In a pts /\ In b pts.
Proof.
  induction pts as [|c pts IH]; [intros []|].
  destruct pts as [|d rest]; [intros []|].
  intros [[= -> ->]|Hin].
  - split; [now left | right; now left].
  - destruct (IH Hin). split; now right.
Qed.

(** [line.interpolate(line.project(p))] is the nearest position on a segment
    of the line that is as near to [p] as every other segment. *)
Lemma interpolate_project_on_segment pts :
  (2 <= List.length pts)%nat ->
  exists a b,
    In (a, b) (segments pts)
    /\ interpolate (mkLineString pts) (project (mkLineString pts) p)
       = point_along a b (projection_factor a b p)
    /\ Forall (fun s => segment_distance a b p
                        <= segment_distance (fst s) (snd s) p)
         (segments pts).
Proof.
  intros Hlen. unfold project, interpolate, length. cbn [coords].
  destruct (project_from_nearest pts None (-1) 0 ltac:(lra))
    as [[_ Hnone]|(pre & a & b & post & E & Hres & Hmin & _)].
  - cbn in Hnone. destruct pts as [|a [|b rest]]; cbn in Hlen; try lia.
    discriminate.
  - exists a, b. rewrite Hres.
    pose proof (distance_nonneg a b) as Hab.
    pose proof (projection_factor_range a b p) as Hpf.
    pose proof (length_of_nonneg (pre ++ [a])) as Hpre.
    rewrite Rltb_false by nra.
    split; [rewrite E; apply segments_In|].
    split; [|exact Hmin].
    rewrite E at 1.
    apply (interpolate_from_segment a b post (projection_factor a b p) Hpf).
    lra.
Qed.

(** It is at least as near to [p] as every vertex of the line. *)
Lemma interpolate_project_nearest pts v :
  (2 <= List.length pts)%nat -> In v pts ->
  distance p (interpolate (mkLineString pts) (project (mkLineString pts) p))
  <= distance p v.
Proof.
  intros Hlen Hv.
  destruct (interpolate_project_on_segment pts Hlen)
    as (a & b & _ & -> & Hmin).
  change (segment_distance a b p <= distance p v).
  destruct (vertex_on_segment pts v Hlen Hv) as ([a' b'] & Hs & Hends).
  rewrite Forall_forall in Hmin. specialize (Hmin _ Hs).
  cbn [fst snd] in Hmin, Hends.
  pose proof (segment_distance_le_ends a' b' p) as [Ha' Hb'].
  destruct Hends as [->| ->]; lra.
Qed.

End NearestPoint.

Section OwnLine.

Import Shapely Utils Dominance.

Lemma le_distance_from_datum x q : snd q <= distance (x, 0) q.
Proof.
  unfold distance. destruct q as [qx qy]. cbn [fst snd].
  destruct (Rle_dec qy 0) as [H|H].
  - pose proof (sqrt_pos ((qx - x) * (qx - x) + (qy - 0) * (qy - 0))). lra.
  - rewrite <- (sqrt_square qy) at 1 by lra.
    apply sqrt_le_1_alt.
    pose proof (Rle_0_sqr (qx - x)) as Hsq. unfold Rsqr in Hsq.
    replace ((qy - 0) * (qy - 0)) with (qy * qy) by ring. lra.
Qed.

Lemma distance_to_vertex_above x y : 0 <= y -> distance (x, 0) (x, y) = y.
Proof.
  intros Hy. unfold distance. cbn [fst snd].
  replace ((x - x) * (x - x) + (y - 0) * (y - 0)) with (y * y) by ring.
  now apply sqrt_square.
Qed.

(** A line does not hide its own vertices at or above elevation zero *)
Lemma own_line_never_dominates line x y :
  In (x, y) line -> 0 <= y -> ~ dominates line x y.
Proof.
  intros Hin Hy (ls & Hnew & _ & _ & _ & Hhigh).
  destruct line as [|a [|b rest]]; [destruct Hin | discriminate |].
  injection Hnew as <-.
  pose proof (interpolate_project_nearest (x, 0) (a :: b :: rest) (x, y)
                ltac:(cbn; lia) Hin) as Hnear.
  rewrite distance_to_vertex_above in Hnear by exact Hy.
  pose proof (le_distance_from_datum x
                (interpolate (mkLineString (a :: b :: rest))
                   (project (mkLineString (a :: b :: rest)) (x, 0)))).
  lra.
Qed.

End OwnLine.

(** X15: The lines a candidate is a vertex of never discard it when it is at
    or above elevation zero: where step 3 returns, such a candidate is left
    out exactly when some line it is not a vertex of passes the three tests
    of the loop (a length other than zero, the projection of [(x, 0)] at
    neither end of the line, the point of the line there higher than [y] by
    more than the tolerance). *)
Theorem candidate_above_datum_discarded_iff_other_line_dominates :
  forall (profile_lines : list (list Shapely.Point))
         (pts : list Shapely.Point) (x y : R),
    Utils.top_surface_points profile_lines = Py.Ok pts ->
    In (x, y) (Utils.top_candidates profile_lines) ->
    0 <= y ->
    (~ In (x, y) pts <-> Dominance.dominated_by_other_line profile_lines x y).
Proof.
  intros lines pts x y Hrun Hc Hy.
  assert (Hs : In (x, y) (Utils.sorted_by Utils.item_leb
                            (Utils.top_candidates lines))).
  { eapply Permutation_in; [apply Permutation_sym, sorted_by_perm | exact Hc]. }
  destruct (surface_loop_keep_ok _ _ _ _ (x, y) Hrun Hs) as [keep Hk].
  cbn [fst snd] in Hk.
  assert (Hother : Dominance.dominated_by_some_line lines x y
                   <-> Dominance.dominated_by_other_line lines x y).
  { split.
    - intros (l & Hl & Hd). exists l. repeat split; try assumption.
      intros Hin. now apply (own_line_never_dominates l x y).
    - intros (l & Hl & _ & Hd). now exists l. }
  rewrite <- Hother, <- (keep_loop_dominated _ _ _ _ Hk).
  apply top_surface_points_filter in Hrun. subst pts.
  rewrite filter_In. unfold keeps; cbn [fst snd]. rewrite Hk.
  destruct keep; split; intros H; try reflexivity; try discriminate.
  - exfalso; apply H; auto.
  - intros [_ H']; discriminate.
Qed.

Lemma crossing_surface_points :
  Utils.top_surface_points [line_A; line_B] = Py.Ok [(0, 5); (10, 10)].
Proof.
  unfold Utils.top_surface_points.
  rewrite crossing_candidates.
  unfold Utils.item_leb, Utils.tuple_leb;
    cbn [Utils.sorted_by fold_right Utils.insert_by fst snd]; rdec.
  cbn [Utils.surface_loop].
  rewrite crossing_keeps_left, crossing_keeps_right. reflexivity.
Qed.

Lemma candidate_above_datum_discarded_iff_other_line_dominates_witness :
  ~ In (0, 5) [(0, 5); (10, 10)]
  <-> Dominance.dominated_by_other_line [line_A; line_B] 0 5.
Proof.
  apply (candidate_above_datum_discarded_iff_other_line_dominates
           [line_A; line_B] [(0, 5); (10, 10)] 0 5).
  - exact crossing_surface_points.
  - rewrite crossing_candidates. now left.
  - lra.
Defined.

(** ** A single profile line *)

Section SingleLine.

Import Shapely Utils Dominance.

Lemma item_leb_antisym p q :
  item_leb p q = true -> item_leb q p = true -> p = q.
Proof.
  unfold item_leb. rewrite !tuple_leb_spec. destruct p as [x y], q as [x' y'].
  cbn [fst snd]. intros H1 H2. f_equal; lra.
Qed.

Lemma dict_get_fresh d x :
  (forall k, In k (map fst d) -> k < x) -> dict_get d x = None.
Proof.
  induction d as [|[k v] d IH]; cbn; [reflexivity|].
  intros H. rewrite Reqb_false by (specialize (H k (or_introl eq_refl)); lra).
  apply IH. intros k' Hk'. apply H. now right.
Qed.

Lemma dict_set_fresh d x y :
  (forall k, In k (map fst d) -> k < x) -> dict_set d x y = d ++ [(x, y)].
Proof.
  induction d as [|[k v] d IH]; cbn; [reflexivity|].
  intros H. rewrite Reqb_false by (specialize (H k (or_introl eq_refl)); lra).
  f_equal. apply IH. intros k' Hk'. apply H. now right.
Qed.

Lemma filter_all (f : Point -> bool) (l : list Point) :
  (forall p, In p l -> f p = true) -> filter f l = l.
Proof.
  induction l as [|a l IH]; intros H; cbn; [reflexivity|].
  rewrite (H a (or_introl eq_refl)). f_equal. apply IH.
  intros p Hp. apply H. now right.
Qed.

Lemma one_point_In (l : list Point) :
  List.length l = 1%nat -> exists p, In p l.
Proof. destruct l as [|p l]; [discriminate|]. intros _. exists p. now left. Qed.

Lemma keep_loop_one_point x y (l : list Point) rest :
  List.length l = 1%nat ->
  keep_loop x y (l :: rest) = Py.Raise Py.GEOSException.
Proof. destruct l as [|p [|q l]]; try discriminate. reflexivity. Qed.

Variable line : list Point.
Hypothesis increasing : StronglySorted (fun p q => fst p < fst q) line.

Lemma increasing_NoDup : NoDup line.
Proof.
  induction increasing as [|p l Hl IH Hp]; [constructor|].
  constructor; [|exact (IH Hl)].
  intros Hin. rewrite Forall_forall in Hp. specialize (Hp p Hin). lra.
Qed.

Lemma increasing_sorted (leb : Point -> Point -> bool) :
  (forall p q, fst p < fst q -> leb p q = true) ->
  StronglySorted (fun p q => leb p q = true) line.
Proof.
  intros Hleb.
  induction increasing as [|p l Hl IH Hp]; [constructor|].
  constructor; [exact (IH Hl)|].
  eapply Forall_impl; [|exact Hp]. intros q. apply Hleb.
Qed.

Lemma key_leb_of_lt p q : fst p < fst q -> key_leb p q = true.
Proof. unfold key_leb. rewrite tuple_leb_spec. lra. Qed.

Lemma item_leb_of_lt p q : fst p < fst q -> item_leb p q = true.
Proof. unfold item_leb. rewrite tuple_leb_spec. lra. Qed.

Lemma single_all_points : all_points [line] = line.
Proof.
  unfold all_points, set_of. cbn [List.concat]. rewrite app_nil_r.
  rewrite (nodup_fixed_point point_eq_dec increasing_NoDup).
  apply (sorted_perm_eq key_leb key_leb_antisym).
  - apply sorted_by_sorted; [apply key_leb_total | apply key_leb_trans].
  - apply increasing_sorted, key_leb_of_lt.
  - apply sorted_by_perm.
Qed.

Lemma top_candidates_loop_increasing :
  forall d,
    (forall k p, In k (map fst d) -> In p line -> k < fst p) ->
    top_candidates_loop line d = d ++ line.
Proof.
  induction increasing as [|[x y] l Hl IH Hp]; intros d Hd; cbn.
  - now rewrite app_nil_r.
  - assert (Hfresh : forall k, In k (map fst d) -> k < x).
    { intros k Hk. apply (Hd k (x, y) Hk). now left. }
    rewrite (dict_get_fresh d x Hfresh), (dict_set_fresh d x y Hfresh).
    rewrite (IH Hl); [now rewrite <- app_assoc|].
    intros k p Hk Hin. rewrite map_app, in_app_iff in Hk.
    destruct Hk as [Hk|[<-|[]]].
    + apply (Hd k p Hk). now right.
    + rewrite Forall_forall in Hp. exact (Hp p Hin).
Qed.

Lemma single_top_candidates : top_candidates [line] = line.
Proof.
  unfold top_candidates. rewrite single_all_points.
  apply (top_candidates_loop_increasing []). intros k p [].
Qed.

Lemma single_sorted_candidates :
  sorted_by item_leb (top_candidates [line]) = line.
Proof.
  rewrite single_top_candidates.
  apply (sorted_perm_eq item_leb item_leb_antisym).
  - apply sorted_by_sorted; [apply item_leb_total | apply item_leb_trans].
  - apply increasing_sorted, item_leb_of_lt.
  - apply sorted_by_perm.
Qed.

Hypothesis above_datum : forall p, In p line -> 0 <= snd p.

(** The scan of the line itself, where it comes to an end, keeps the vertex *)
Lemma single_keeps x y k :
  In (x, y) line -> keep_loop x y [line] = Py.Ok k -> k = true.
Proof.
  intros Hin Hk. destruct k; [reflexivity|]. exfalso.
  destruct (proj1 (keep_loop_dominated x y [line] false Hk) eq_refl)
    as (l & [<-|[]] & Hd).
  apply (own_line_never_dominates line x y Hin); [|exact Hd].
  exact (above_datum (x, y) Hin).
Qed.

Lemma single_surface_points pts :
  top_surface_points [line] = Py.Ok pts -> pts = line.
Proof.
  intros Hrun. pose proof (top_surface_points_filter _ _ Hrun) as E.
  unfold top_surface_points in Hrun.
  rewrite single_sorted_candidates in Hrun, E.
  rewrite E. apply filter_all. intros [x y] Hp.
  destruct (surface_loop_keep_ok _ _ _ _ (x, y) Hrun Hp) as [k Hk].
  cbn [fst snd] in Hk. unfold keeps. cbn [fst snd]. rewrite Hk.
  now rewrite (single_keeps x y k Hp Hk).
Qed.

Lemma single_ground_surface ls :
  build_ground_surface [line] = Py.Ok ls -> ls = mkLineString line.
Proof.
  intros H. apply build_ground_surface_coords in H.
  destruct H as (pts & Hpts & Hc).
  pose proof (single_surface_points pts Hpts) as E.
  destruct ls as [cs]. cbn [coords] in Hc. f_equal. rewrite Hc, E.
  destruct (Nat.leb_spec 2 (List.length line)) as [H2|H2]; [reflexivity|].
  destruct (Nat.eq_dec (List.length line) 1) as [H1|H1].
  - exfalso. destruct (one_point_In line H1) as [[x y] Hp].
    unfold top_surface_points in Hpts.
    rewrite single_sorted_candidates in Hpts.
    destruct (surface_loop_keep_ok _ _ _ _ (x, y) Hpts Hp) as [k Hk].
    cbn [fst snd] in Hk.
    rewrite (keep_loop_one_point x y line [] H1) in Hk. discriminate.
  - symmetry. apply length_zero_iff_nil. lia.
Qed.

End SingleLine.

Lemma line_A_ground_surface :
  Utils.build_ground_surface [line_A]
  = Py.Ok (Shapely.mkLineString [(0, 0); (10, 10)]).
Proof.
  pose proof line_A_length as HA.
  assert (Hc : Utils.top_candidates [line_A] = [(0, 0); (10, 10)]).
  { unfold line_A. candidates_eval. reflexivity. }
  assert (Hleft : Utils.keep_loop 0 0 [line_A] = Py.Ok true).
  { unfold line_A. cbn [Utils.keep_loop Shapely.new].
    rewrite !length_two, !project_two.
    replace (Shapely.projection_factor (0, 0) (10, 10) (0, 0)) with 0
      by (unfold Shapely.projection_factor; cbn [fst snd]; rdec; lra).
    rdec. reflexivity. }
  assert (Hright : Utils.keep_loop 10 10 [line_A] = Py.Ok true).
  { unfold line_A. cbn [Utils.keep_loop Shapely.new].
    rewrite !length_two, !project_two.
    replace (Shapely.projection_factor (0, 0) (10, 10) (10, 0)) with (1 / 2)
      by (unfold Shapely.projection_factor; cbn [fst snd]; rdec; lra).
    rdec. rewrite interpolate_two by lra.
    replace (1 / 2 * Shapely.distance (0, 0) (10, 10)
             / Shapely.distance (0, 0) (10, 10))
      with (1 / 2) by (field; lra).
    unfold Shapely.point_along; cbn [fst snd]. rdec. reflexivity. }
  unfold Utils.build_ground_surface, Utils.top_surface_points.
  rewrite Hc.
  unfold Utils.item_leb, Utils.tuple_leb;
    cbn [Utils.sorted_by fold_right Utils.insert_by fst snd]; rdec.
  cbn [Utils.surface_loop].
  rewrite Hleft, Hright. reflexivity.
Qed.

(** X17: Where [build_ground_surface] returns on a single profile line that is
    strictly increasing in x and has no vertex below elevation zero, it
    returns that line, every vertex kept and in order. *)
Theorem single_line_above_datum_is_ground_surface :
  forall (line : list Shapely.Point) (ls : Shapely.LineString),
    StronglySorted (fun p q => fst p < fst q) line ->
    (forall p, In p line -> 0 <= snd p) ->
    Utils.build_ground_surface [line] = Py.Ok ls ->
    ls = Shapely.mkLineString line.
Proof. intros line ls Hinc Habove. now apply single_ground_surface. Qed.

Lemma single_line_above_datum_is_ground_surface_witness :
  Shapely.mkLineString [(0, 0); (10, 10)] = Shapely.mkLineString line_A.
Proof.
  apply single_line_above_datum_is_ground_surface.
  - unfold line_A. repeat constructor; cbn [fst]; lra.
  - unfold line_A. intros p [<-|[<-|[]]]; cbn [snd]; lra.
  - exact line_A_ground_surface.
Defined.

(** ** Ground surface: when it raises *)

Section Raises.

Import Shapely Utils Dominance.

Lemma point_along_below a b t top :
  0 <= t <= 1 -> snd a <= top -> snd b <= top ->
  snd (point_along a b t) <= top.
Proof.
  unfold point_along. destruct a as [ax ay], b as [bx b_y]. cbn [fst snd].
  intros Ht Ha Hb.
  replace (ay + t * (b_y - ay)) with ((1 - t) * ay + t * b_y) by ring.
  assert ((1 - t) * ay <= (1 - t) * top)
    by (apply Rmult_le_compat_l; lra).
  assert (t * b_y <= t * top) by (apply Rmult_le_compat_l; lra).
  lra.
Qed.

(** No line is higher than its highest vertex *)
Lemma highest_never_dominated line x y :
  (forall v, In v line -> snd v <= y) -> ~ dominates line x y.
Proof.
  intros Htop (ls & Hnew & Hlen & _ & _ & Hhigh).
  destruct line as [|a [|b rest]]; [|discriminate|].
  { injection Hnew as <-. now apply Hlen. }
  injection Hnew as <-.
  destruct (interpolate_project_on_segment (x, 0) (a :: b :: rest)
              ltac:(cbn; lia)) as (a' & b' & Hs & E & _).
  rewrite E in Hhigh.
  destruct (segment_vertices _ _ _ Hs) as [Ha' Hb'].
  pose proof (point_along_below a' b' (projection_factor a' b' (x, 0)) y
                (projection_factor_range _ _ _)
                (Htop _ Ha') (Htop _ Hb')).
  lra.
Qed.

Lemma keep_loop_raises_only x y lines e :
  keep_loop x y lines = Py.Raise e -> e = Py.GEOSException.
Proof.
  induction lines as [|line lines IH]; cbn [keep_loop]; [discriminate|].
  destruct line as [|a [|b rest]]; cbn [Shapely.new].
  - destruct (Reqb _ 0); [exact IH|].
    destruct (_ || _); [exact IH|].
    destruct (Rltb _ _); [discriminate | exact IH].
  - now intros [= <-].
  - destruct (Reqb _ 0); [exact IH|].
    destruct (_ || _); [exact IH|].
    destruct (Rltb _ _); [discriminate | exact IH].
Qed.

Lemma keep_loop_raises x y lines :
  Exists (fun line => List.length line = 1%nat) lines ->
  (forall line, In line lines -> ~ dominates line x y) ->
  keep_loop x y lines = Py.Raise Py.GEOSException.
Proof.
  induction lines as [|line lines IH]; intros Hone Hnd;
    [inversion Hone|].
  cbn [keep_loop].
  destruct (Shapely.new line) as [ls|e] eqn:Hnew.
  - assert (Hrest : keep_loop x y lines = Py.Raise Py.GEOSException).
    { apply IH; [|intros l Hl; apply Hnd; now right].
      inversion Hone as [? ? H1|]; subst; [|assumption].
      destruct line as [|a [|b rest]]; cbn in H1, Hnew; try discriminate. }
    destruct (Reqb (length ls) 0) eqn:E0; [exact Hrest|].
    destruct (Reqb (project ls (x, 0)) 0) eqn:E1; [exact Hrest|].
    destruct (Reqb (project ls (x, 0)) (length ls)) eqn:E2; [exact Hrest|].
    cbn [orb].
    destruct (Rltb (y + / 1000000) (snd (interpolate ls (project ls (x, 0)))))
      eqn:E3; [|exact Hrest].
    exfalso. apply (Hnd line (or_introl eq_refl)). exists ls.
    repeat split; try assumption.
    + intros H; apply Reqb_true in H; congruence.
    + intros H; apply Reqb_true in H; congruence.
    + intros H; apply Reqb_true in H; congruence.
    + now apply Rltb_spec.
  - destruct line as [|a [|b rest]]; cbn in Hnew; congruence.
Qed.

Lemma surface_loop_raises lines :
  Exists (fun line => List.length line = 1%nat) lines ->
  forall cands acc,
    (exists p, In p cands
               /\ forall line, In line lines ->
                               ~ dominates line (fst p) (snd p)) ->
    surface_loop cands lines acc = Py.Raise Py.GEOSException.
Proof.
  intros Hone. induction cands as [|[x y] cands IH]; intros acc (p & Hp & Hnd).
  { destruct Hp. }
  cbn [surface_loop].
  destruct (keep_loop x y lines) as [keep|e] eqn:Hk.
  - apply IH. exists p. split; [|exact Hnd].
    destruct Hp as [<-|Hp]; [|exact Hp].
    cbn [fst snd] in Hnd. rewrite (keep_loop_raises x y lines Hone Hnd) in Hk.
    discriminate.
  - now rewrite (keep_loop_raises_only _ _ _ _ Hk).
Qed.

Lemma highest_point (pts : list Point) :
  pts <> [] -> exists v, In v pts /\ forall w, In w pts -> snd w <= snd v.
Proof.
  induction pts as [|a pts IH]; [congruence|]. intros _.
  destruct pts as [|b rest].
  - exists a. split; [now left|]. intros w [<-|[]]. lra.
  - destruct IH as (v & Hv & Hmax); [discriminate|].
    destruct (Rle_dec (snd v) (snd a)) as [H|H].
    + exists a. split; [now left|].
      intros w [<-|Hw]; [lra|]. specialize (Hmax w Hw). lra.
    + exists v. split; [now right|].
      intros w [<-|Hw]; [lra|]. now apply Hmax.
Qed.

(** Step 2 keeps a candidate as high as every vertex of every line *)
Lemma highest_candidate lines :
  Exists (fun line => List.length line = 1%nat) lines ->
  exists p, In p (top_candidates lines)
            /\ forall line v, In line lines -> In v line -> snd v <= snd p.
Proof.
  intros Hone.
  assert (Hne : all_points lines <> []).
  { apply Exists_exists in Hone. destruct Hone as (l & Hl & Hlen).
    destruct l as [|a [|b rest]]; try discriminate.
    intros E. assert (Hin : In a (all_points lines))
      by (apply all_points_In; exists [a]; split; [exact Hl | now left]).
    rewrite E in Hin. destruct Hin. }
  destruct (highest_point _ Hne) as ([k yv] & Hv & Hmax).
  destruct (top_candidates_highest lines) as (_ & Hhigh & Hall).
  specialize (Hall k yv Hv).
  destruct (dict_get (top_candidates lines) k) as [yc|] eqn:Hget;
    [|congruence].
  apply dict_get_In in Hget.
  destruct (Hhigh k yc Hget) as [Hseen Hyc].
  exists (k, yc). split; [exact Hget|].
  intros line v Hline Hin. cbn [snd].
  assert (Hvin : In v (all_points lines))
    by (apply all_points_In; eauto).
  specialize (Hmax v Hvin). specialize (Hyc yv Hv). cbn [snd] in Hmax. lra.
Qed.

Lemma ground_surface_raises lines :
  Exists (fun line => List.length line = 1%nat) lines ->
  build_ground_surface lines = Py.Raise Py.GEOSException.
Proof.
  intros Hone. unfold build_ground_surface, top_surface_points.
  rewrite (surface_loop_raises lines Hone); [reflexivity|].
  destruct (highest_candidate lines Hone) as (p & Hp & Htop).
  exists p. split.
  - eapply Permutation_in; [apply Permutation_sym, sorted_by_perm | exact Hp].
  - intros line Hline. apply highest_never_dominated.
    intros v Hv. exact (Htop line v Hline Hv).
Qed.

End Raises.

(** X13: A profile line of exactly one point makes [build_ground_surface]
    raise, wherever the line stands among the profile lines and whatever the
    other lines are: the highest vertex of the input is a candidate that no
    line hides, so its scan of the lines does not stop short of the
    one-point line. *)
Theorem one_point_line_makes_ground_surface_raise :
  forall (lines : list (list Shapely.Point)),
    Exists (fun line => List.length line = 1%nat) lines ->
    Utils.build_ground_surface lines = Py.Raise Py.GEOSException.
Proof. exact ground_surface_raises. Qed.

Lemma one_point_line_makes_ground_surface_raise_witness :
  Utils.build_ground_surface [line_A; [(20, 3)]; line_B]
  = Py.Raise Py.GEOSException.
Proof.
  apply one_point_line_makes_ground_surface_raise.
  right. left. reflexivity.
Defined.

(** ** [load_globals]: profile lines, ground surface, tension crack *)

Section LoadGlobalsSurfaces.

Import Shapely LoadGlobals.

Definition nonempty (coords : list Point) : bool :=
  match coords with [] => false | _ => true end.

Lemma profile_loop_raises blocks :
  Exists (fun coords => List.length coords = 1%nat) blocks ->
  forall profile_lines,
    profile_loop blocks profile_lines = Py.Raise Py.ValueError.
Proof.
  induction blocks as [|coords blocks IH]; intros Hone acc;
    [inversion Hone|].
  cbn [profile_loop]. unfold append_profile_line.
  destruct (List.length coords =? 1)%nat eqn:E; [reflexivity|].
  apply Nat.eqb_neq in E.
  inversion Hone; subst; [contradiction|].
  destruct coords; now apply IH.
Qed.

Lemma profile_loop_returns blocks :
  Forall (fun coords => List.length coords <> 1%nat) blocks ->
  forall profile_lines,
    profile_loop blocks profile_lines
    = Py.Ok (profile_lines ++ filter nonempty blocks).
Proof.
  induction blocks as [|coords blocks IH]; intros Hnone acc.
  - cbn. now rewrite app_nil_r.
  - inversion Hnone as [|? ? Hc Hrest]; subst.
    cbn [profile_loop]. unfold append_profile_line.
    apply Nat.eqb_neq in Hc. rewrite Hc.
    destruct coords as [|p coords]; cbn [filter nonempty].
    + now apply IH.
    + rewrite (IH Hrest). now rewrite <- app_assoc.
Qed.

Lemma profile_lines_two_points blocks :
  Forall (fun coords => List.length coords <> 1%nat) blocks ->
  Forall (fun line => (2 <= List.length line)%nat) (filter nonempty blocks).
Proof.
  intros Hnone. apply Forall_forall. intros line Hline.
  apply filter_In in Hline. destruct Hline as [Hline Hne].
  rewrite Forall_forall in Hnone. specialize (Hnone line Hline).
  destruct line as [|p [|q line]]; cbn in *; try discriminate; lia.
Qed.

Lemma tcrack_surface_returns depth lines gs :
  Fileio.build_ground_surface lines = Py.Ok gs ->
  tcrack_surface depth gs
  = Py.Ok (if Rltb 0 depth then Some (mkLineString (lowered depth gs))
           else None).
Proof.
  intros Hgs. apply build_ground_surface_coords in Hgs.
  destruct Hgs as (pts & _ & Hc).
  unfold tcrack_surface, lowered.
  destruct (Rltb 0 depth); [|reflexivity].
  rewrite Hc. destruct pts as [|a [|b rest]]; reflexivity.
Qed.

End LoadGlobalsSurfaces.

(** X18: In [load_globals] a profile block of exactly one point stops the
    load with [ValueError] before the ground surface is built.  Otherwise the
    profile lines are the non-empty blocks, in order, each of two or more
    points; [build_ground_surface] is called on them and what it raises is
    passed on; when it returns, the tension crack line is built without an
    exception: the ground surface lowered by the crack depth when that is
    positive, and none otherwise. *)
Theorem load_globals_surfaces_outcome :
  forall (blocks : list (list Shapely.Point)) (tcrack_depth : R),
    let profile_lines := filter nonempty blocks in
    (Exists (fun coords => List.length coords = 1%nat) blocks
     /\ LoadGlobals.surfaces blocks tcrack_depth = Py.Raise Py.ValueError)
    \/ (Forall (fun line => (2 <= List.length line)%nat) profile_lines
        /\ LoadGlobals.surfaces blocks tcrack_depth
           = match Fileio.build_ground_surface profile_lines with
             | Py.Raise e => Py.Raise e
             | Py.Ok ground_surface =>
                 Py.Ok (profile_lines, ground_surface,
                        if Shapely.Rltb 0 tcrack_depth
                        then Some (Shapely.mkLineString
                                     (LoadGlobals.lowered tcrack_depth
                                        ground_surface))
                        else None)
             end).
Proof.
  intros blocks depth profile_lines. unfold LoadGlobals.surfaces.
  destruct (Exists_dec (fun coords : list Shapely.Point =>
                          List.length coords = 1%nat) blocks
              (fun coords => Nat.eq_dec (List.length coords) 1))
    as [Hone|Hnone].
  - left. split; [exact Hone|]. now rewrite profile_loop_raises.
  - right. apply Forall_Exists_neg in Hnone.
    split; [now apply profile_lines_two_points|].
    rewrite (profile_loop_returns blocks Hnone []). cbn [app].
    fold profile_lines.
    destruct (Fileio.build_ground_surface profile_lines) as [gs|e] eqn:Hgs;
      [|reflexivity].
    now rewrite (tcrack_surface_returns depth profile_lines gs Hgs).
Qed.
